(** * Browserwright / Playwriter: the CDP relay, getCdpUrl and RefRegistry

    A shallow embedding of the parts of the repository that the
    specification talks about:

    - [RefRegistry]  : [playwriter/src/ref-registry.ts]
    - [Utils]        : [browserwright/src/utils.ts] ([getCdpUrl])
    - [ExtensionIds] : the origin check and the id extraction exercised
                       by [test/unit/message-parser.test.ts]
    - [Relay]        : the CDP relay ([cdp-relay.ts]) as a state machine over
                       upgrade requests and frames.
    - [MessageParser]: the message handlers spelled out in
                       [test/unit/message-parser.test.ts]
    - [Launcher]     : [browserwright/src/launcher.ts] ([isProfileLocked])

    JavaScript strings are modelled as [string] (a list of code units);
    every code unit these functions inspect is ASCII, any other unit is an
    ordinary character to them. *)

From Equations Require Import Equations.
From stdpp Require Import gmap strings list.
From Stdlib Require Import ZArith Ascii String DecimalString DecimalZ.

Open Scope string_scope.

(** ** Strings *)

#[local] Arguments String.append !s1 s2 : simpl nomatch.

Lemma string_app_nil_r (s : string) : s ++ "" = s.
Proof. induction s as [|c s IH]; simpl; congruence. Qed.

Lemma string_app_assoc (a b c : string) : (a ++ b) ++ c = a ++ (b ++ c).
Proof. induction a as [|x a IH]; simpl; congruence. Qed.

Lemma string_app_length (a b : string) :
  String.length (a ++ b) = (String.length a + String.length b)%nat.
Proof. induction a as [|x a IH]; simpl; congruence. Qed.

Lemma string_app_inv_head (a b c : string) : a ++ b = a ++ c -> b = c.
Proof. induction a as [|x a IH]; simpl; [easy|]. intros [= H]. auto. Qed.

Ltac string_norm :=
  repeat first [ rewrite string_app_assoc | rewrite string_app_nil_r
               | progress cbn [String.append] ].

(** [s.startsWith(p)] *)
Fixpoint startsWith (p s : string) : bool :=
  match p, s with
  | EmptyString, _ => true
  | String a p', String b s' => Ascii.eqb a b && startsWith p' s'
  | String _ _, EmptyString => false
  end.

Lemma startsWith_spec p s : startsWith p s = true <-> exists r, s = p ++ r.
Proof.
  revert s; induction p as [|a p IH]; intros s; simpl.
  - split; eauto.
  - destruct s as [|b s].
    + split; [discriminate | intros [r [=]]].
    + rewrite andb_true_iff, Ascii.eqb_eq, IH. split.
      * intros [-> [r ->]]. eauto.
      * intros [r [= -> ->]]. eauto.
Qed.

(** The decimal digits [0-9], which is what [\d] matches without the
    unicode flag. *)
Definition is_digit (c : ascii) : bool :=
  let n := nat_of_ascii c in (48 <=? n)%nat && (n <=? 57)%nat.
#[global] Arguments is_digit : simpl never.

Fixpoint all_digits (s : string) : bool :=
  match s with
  | EmptyString => true
  | String c t => is_digit c && all_digits t
  end.

(** The longest run of digits at the head of [s], and what follows it:
    the greedy [\d*]. *)
Fixpoint span_digits (s : string) : string * string :=
  match s with
  | String c t =>
      if is_digit c
      then let '(ds, r) := span_digits t in (String c ds, r)
      else (EmptyString, s)
  | EmptyString => (EmptyString, EmptyString)
  end.

Definition head_is_digit (s : string) : bool :=
  match s with
  | String c _ => is_digit c
  | EmptyString => false
  end.

Lemma span_digits_app s ds r : span_digits s = (ds, r) -> s = ds ++ r.
Proof.
  revert ds r; induction s as [|c t IH]; intros ds r; simpl.
  - intros [= <- <-]. reflexivity.
  - destruct (is_digit c).
    + destruct (span_digits t) as [ds' r'].
      intros [= <- <-]. simpl. f_equal. now apply IH.
    + intros [= <- <-]. reflexivity.
Qed.

Lemma span_digits_digits s ds r : span_digits s = (ds, r) -> all_digits ds = true.
Proof.
  revert ds r; induction s as [|c t IH]; intros ds r; simpl.
  - intros [= <- <-]. reflexivity.
  - destruct (is_digit c) eqn:Hc.
    + destruct (span_digits t) as [ds' r'].
      intros [= <- <-]. simpl. rewrite Hc. simpl. eapply IH. reflexivity.
    + intros [= <- <-]. reflexivity.
Qed.

Lemma span_digits_stop s ds r : span_digits s = (ds, r) -> head_is_digit r = false.
Proof.
  revert ds r; induction s as [|c t IH]; intros ds r; simpl.
  - intros [= <- <-]. reflexivity.
  - destruct (is_digit c) eqn:Hc.
    + destruct (span_digits t) as [ds' r'].
      intros [= <- <-]. eapply IH. reflexivity.
    + intros [= <- <-]. simpl. exact Hc.
Qed.

(** Greedy matching loses nothing: a run of digits followed by a
    non-digit is the longest run. *)
Lemma span_digits_unique ds r :
  all_digits ds = true -> head_is_digit r = false ->
  span_digits (ds ++ r) = (ds, r).
Proof.
  intros Hd Hr.
  induction ds as [|c ds IH];
    cbn [span_digits head_is_digit all_digits String.append] in *.
  - destruct r as [|c r]; [reflexivity|].
    cbn [span_digits head_is_digit] in *. now rewrite Hr.
  - apply andb_true_iff in Hd as [Hc Hd]. rewrite Hc, IH by assumption.
    reflexivity.
Qed.

Lemma span_digits_length s ds r :
  span_digits s = (ds, r) ->
  String.length s = (String.length ds + String.length r)%nat.
Proof.
  intros H. rewrite (span_digits_app _ _ _ H). apply string_app_length.
Qed.

Definition inspect {A} (a : A) : {b : A | a = b} := exist _ a eq_refl.

(** *** Occurrences of a unit *)

Ltac string_norm_in H :=
  repeat first [ rewrite string_app_assoc in H
               | rewrite string_app_nil_r in H
               | progress cbn [String.append] in H ].

Lemma string_app_cons c (a b : string) : String c a ++ b = String c (a ++ b).
Proof. reflexivity. Qed.

(** No unit of [s] is [c]. *)
Fixpoint free_of (c : ascii) (s : string) : bool :=
  match s with
  | EmptyString => true
  | String a t => negb (Ascii.eqb a c) && free_of c t
  end.

Lemma free_of_digits c ds :
  is_digit c = false → all_digits ds = true → free_of c ds = true.
Proof.
  intros Hc. induction ds as [|d ds IH]; simpl; [reflexivity|].
  rewrite andb_true_iff. intros [Hd Hds]. rewrite IH by assumption.
  destruct (Ascii.eqb d c) eqn:E; [|reflexivity].
  apply Ascii.eqb_eq in E. congruence.
Qed.

Lemma free_of_app c a b :
  free_of c (a ++ b) = free_of c a && free_of c b.
Proof.
  induction a as [|x a IH]; simpl; [reflexivity|].
  now rewrite IH, andb_assoc.
Qed.

(** A text that is free of [c] and stands before an occurrence of [c]
    ends before it. *)
Lemma free_prefix_split c a rest : ∀ pre y,
  free_of c a = true → a ++ rest = pre ++ String c y →
  ∃ k, pre = a ++ k ∧ rest = k ++ String c y.
Proof.
  induction a as [|x a IH]; intros pre y Hf Heq; simpl in *; [eauto|].
  apply andb_true_iff in Hf as [Hx Hf]. apply negb_true_iff in Hx.
  destruct pre as [|p pre]; simpl in Heq; injection Heq as -> Heq.
  - now rewrite Ascii.eqb_refl in Hx.
  - destruct (IH pre y Hf Heq) as (k & -> & ->). eauto.
Qed.

Lemma string_app_inv_tail (a b c : string) : a ++ c = b ++ c → a = b.
Proof.
  revert b. induction a as [|x a IH]; intros [|y b] Heq; simpl in Heq.
  - reflexivity.
  - apply (f_equal String.length) in Heq. simpl in Heq.
    rewrite string_app_length in Heq. lia.
  - apply (f_equal String.length) in Heq. simpl in Heq.
    rewrite string_app_length in Heq. lia.
  - injection Heq as -> Heq. f_equal. now apply IH.
Qed.

(** The last occurrence of [c] splits a text in one way only. *)
Lemma free_suffix_split c : ∀ u u' t t',
  free_of c t = true → free_of c t' = true →
  u ++ String c t = u' ++ String c t' → u = u' ∧ t = t'.
Proof.
  assert (Hno : ∀ t k t', free_of c t = true → t ≠ k ++ String c t').
  { intros t k t' Hf ->. rewrite free_of_app in Hf. simpl in Hf.
    rewrite Ascii.eqb_refl in Hf. simpl in Hf.
    now rewrite andb_false_r in Hf. }
  induction u as [|x u IH]; intros [|y u'] t t' Ht Ht' Heq; simpl in Heq.
  - injection Heq as ->. auto.
  - injection Heq as -> Heq. now apply Hno in Heq.
  - injection Heq as -> Heq. symmetry in Heq. now apply Hno in Heq.
  - injection Heq as -> Heq. destruct (IH u' t t' Ht Ht' Heq) as [-> ->]. auto.
Qed.

(** ** playwriter/src/ref-registry.ts *)

Module RefRegistry.

(** The double quote character. *)
Definition dquote : ascii := "034"%char.

(** The character class of the expression's first group: the single
    quote, the double quote and the backquote. *)
Definition is_quote (c : ascii) : bool :=
  Ascii.eqb c "'" || Ascii.eqb c dquote || Ascii.eqb c "`".
#[global] Arguments is_quote : simpl never.

(** One attempt of [/(Q)@(e\d+)\1/], [Q] the quote class, at the head of
    [s].  On success: the quote (group 1), the ref (group 2), and the input
    after the match.
    [\d+] is greedy; giving digits back can never help, since the unit
    after a shorter run is a digit and the back-reference needs a quote
    ([match_quoted_ref_spec] below). *)
Definition match_quoted_ref (s : string) : option (ascii * string * string) :=
  match s with
  | String q (String a (String e t)) =>
      if is_quote q && Ascii.eqb a "@" && Ascii.eqb e "e" then
        match span_digits t with
        | (String d ds, String q' rest) =>
            if Ascii.eqb q' q
            then Some (q, String "e" (String d ds), rest)
            else None
        | _ => None
        end
      else None
  | _ => None
  end.

Lemma match_quoted_ref_shape s q ref rest :
  match_quoted_ref s = Some (q, ref, rest) ->
  exists ds, is_quote q = true /\ all_digits ds = true /\ ds <> "" /\
             ref = String "e" ds /\
             s = String q (String "@" (ref ++ String q rest)).
Proof.
  unfold match_quoted_ref.
  destruct s as [|q0 [|a [|e t]]]; try discriminate.
  destruct (is_quote q0 && Ascii.eqb a "@" && Ascii.eqb e "e") eqn:Hh;
    [|discriminate].
  apply andb_true_iff in Hh as [Hh He]. apply andb_true_iff in Hh as [Hq Ha].
  apply Ascii.eqb_eq in Ha, He. subst a e.
  destruct (span_digits t) as [[|d ds] [|q' r]] eqn:Hs; try discriminate.
  destruct (Ascii.eqb q' q0) eqn:Hq'; [|discriminate].
  apply Ascii.eqb_eq in Hq'. subst q'. intros [= <- <- <-].
  exists (String d ds). repeat split; try assumption.
  - eapply span_digits_digits; eassumption.
  - discriminate.
  - simpl. do 3 f_equal. apply (span_digits_app _ _ _ Hs).
Qed.

Lemma quote_not_digit q : is_quote q = true -> is_digit q = false.
Proof.
  unfold is_quote. rewrite !orb_true_iff, !Ascii.eqb_eq.
  intros [[-> | ->] | ->]; reflexivity.
Qed.

(** The matcher agrees with the regular expression read as a
    specification: any split of the input as quote, [@e], a non-empty run
    of digits, and the same quote again is the one the matcher finds. *)
Lemma match_quoted_ref_spec s q ds rest :
  is_quote q = true -> all_digits ds = true -> ds <> "" ->
  s = String q (String "@" (String "e" (ds ++ String q rest))) ->
  match_quoted_ref s = Some (q, String "e" ds, rest).
Proof.
  intros Hq Hd Hne ->. unfold match_quoted_ref.
  rewrite Hq, !Ascii.eqb_refl. cbn [andb].
  rewrite (span_digits_unique ds (String q rest) Hd (quote_not_digit q Hq)).
  destruct ds as [|d ds]; [congruence|]. now rewrite Ascii.eqb_refl.
Qed.

Lemma match_quoted_ref_shorter s q ref rest :
  match_quoted_ref s = Some (q, ref, rest) ->
  (String.length rest < String.length s)%nat.
Proof.
  intros H. apply match_quoted_ref_shape in H as (ds & _ & _ & _ & -> & ->).
  simpl. rewrite string_app_length. simpl. lia.
Qed.

(** [code.replace(/(Q)@(e\d+)\1/g, (_, quote, ref) =>
      `${quote}aria-ref=${ref}${quote}`)]: scan from the left; where the
    expression matches, emit the replacement and resume after the match;
    elsewhere copy one unit and move on. *)
Equations? resolveShortRefs (code : string) : string
  by wf (String.length code) lt :=
  resolveShortRefs EmptyString := EmptyString;
  resolveShortRefs (String c t)
    with inspect (match_quoted_ref (String c t)) := {
    | exist _ (Some (q, ref, rest)) _ :=
        String q ("aria-ref=" ++ ref ++ String q (resolveShortRefs rest));
    | exist _ None _ := String c (resolveShortRefs t) }.
Proof.
  - eapply match_quoted_ref_shorter; eassumption.
  - simpl. lia.
Qed.

(** One attempt of [/@e\d+/] at the head of [s]: the matched text and
    the input after it. *)
Definition match_short_ref (s : string) : option (string * string) :=
  match s with
  | String a (String e t) =>
      if Ascii.eqb a "@" && Ascii.eqb e "e" then
        match span_digits t with
        | (String d ds, rest) => Some ("@e" ++ String d ds, rest)
        | _ => None
        end
      else None
  | _ => None
  end.

(** [/@e\d+/.test(code)]: is there a position where the expression
    matches. *)
Fixpoint hasShortRefs (code : string) : bool :=
  match code with
  | EmptyString => false
  | String _ t =>
      match match_short_ref code with
      | Some _ => true
      | None => hasShortRefs t
      end
  end.

Lemma match_short_ref_shorter s m rest :
  match_short_ref s = Some (m, rest) ->
  (String.length rest < String.length s)%nat.
Proof.
  unfold match_short_ref. destruct s as [|a [|e t]]; try discriminate.
  destruct (Ascii.eqb a "@" && Ascii.eqb e "e"); [|discriminate].
  destruct (span_digits t) as [[|d ds] r] eqn:Hs; [discriminate|].
  intros [= <- <-]. apply span_digits_length in Hs. simpl in *. lia.
Qed.

(** The successive matches of the global expression [/@e\d+/g], left to
    right, each search resuming after the previous match. *)
Equations? match_all (code : string) : list string
  by wf (String.length code) lt :=
  match_all EmptyString := [];
  match_all (String c t) with inspect (match_short_ref (String c t)) := {
    | exist _ (Some (m, rest)) _ := m :: match_all rest;
    | exist _ None _ := match_all t }.
Proof.
  - eapply match_short_ref_shorter; eassumption.
  - simpl. lia.
Qed.

(** [code.match(/@e\d+/g)]: [null] when nothing matches. *)
Definition String_match (code : string) : option (list string) :=
  match match_all code with
  | [] => None
  | ms => Some ms
  end.

(** [m.slice(1)] *)
Definition slice1 (m : string) : string :=
  match m with
  | String _ t => t
  | EmptyString => EmptyString
  end.

(** [[...new Set(xs)]]: a Set keeps its members in insertion order and
    ignores a value it already holds. *)
Definition Set_add (acc : list string) (x : string) : list string :=
  if bool_decide (x ∈ acc) then acc else (acc ++ [x])%list.

Definition Set_of (xs : list string) : list string :=
  fold_left Set_add xs [].

Definition extractRefs (code : string) : list string :=
  match String_match code with
  | None => []
  | Some matches => Set_of (map slice1 matches)
  end.

(** The distinct members of a list, each at its first occurrence. *)
Fixpoint first_occurrences (l : list string) : list string :=
  match l with
  | [] => []
  | x :: t => x :: filter (λ y, y ≠ x) (first_occurrences t)
  end.

(** Position of the first occurrence of [x] in [l]. *)
Fixpoint first_index (x : string) (l : list string) : option nat :=
  match l with
  | [] => None
  | y :: t => if decide (x = y) then Some 0%nat else S <$> first_index x t
  end.

(** Is there a position where the quoted expression matches. *)
Fixpoint has_quoted_ref (s : string) : bool :=
  match s with
  | EmptyString => false
  | String _ t =>
      match match_quoted_ref s with
      | Some _ => true
      | None => has_quoted_ref t
      end
  end.

(** The rewriting as the expression is usually read: every [@] that
    stands between an opening quote and [eN] followed by the same quote
    becomes [aria-ref=], and every other unit is copied.  [prev] is the
    unit just before [s]. *)
Fixpoint rewrite_every (prev : option ascii) (s : string) : string :=
  match s with
  | EmptyString => EmptyString
  | String c t =>
      let quoted :=
        match prev with
        | Some q =>
            match match_quoted_ref (String q s) with
            | Some _ => true
            | None => false
            end
        | None => false
        end in
      (if quoted then "aria-ref=" else String c EmptyString)
        ++ rewrite_every (Some c) t
  end.

Definition rewrite_every_quoted_ref (s : string) : string :=
  rewrite_every None s.

(** Does some quote close one quoted ref and open the next. *)
Fixpoint shares_quote (s : string) : bool :=
  match s with
  | EmptyString => false
  | String _ t =>
      match match_quoted_ref s with
      | Some (q, _, rest) =>
          match match_quoted_ref (String q rest) with
          | Some _ => true
          | None => shares_quote t
          end
      | None => shares_quote t
      end
  end.

(** The rewriting the expression performs, read off the input: at a
    quoted ref, rewrite it and go on after its closing quote; at any other
    position copy one unit. *)
Inductive resolves : string → string → Prop :=
| resolves_end : resolves "" ""
| resolves_ref q ds rest out :
    is_quote q = true → all_digits ds = true → ds ≠ "" →
    resolves rest out →
    resolves (String q (String "@" (String "e" (ds ++ String q rest))))
             (String q ("aria-ref=e" ++ ds ++ String q out))
| resolves_copy c t out :
    (∀ q ds rest, is_quote q = true → all_digits ds = true → ds ≠ "" →
       String c t ≠ String q (String "@" (String "e" (ds ++ String q rest)))) →
    resolves t out →
    resolves (String c t) (String c out).

(** *** Facts about the matchers *)

#[global] Arguments match_quoted_ref : simpl never.

Lemma resolveShortRefs_match s q ref rest :
  match_quoted_ref s = Some (q, ref, rest) →
  resolveShortRefs s
  = String q ("aria-ref=" ++ ref ++ String q (resolveShortRefs rest)).
Proof.
  funelim (resolveShortRefs s); intros Hm.
  - discriminate.
  - rewrite e in Hm. now injection Hm as <- <- <-.
  - congruence.
Qed.

Lemma resolveShortRefs_skip s :
  match_quoted_ref s = None →
  resolveShortRefs s
  = match s with
    | String c t => String c (resolveShortRefs t)
    | EmptyString => EmptyString
    end.
Proof.
  funelim (resolveShortRefs s); intros Hm.
  - reflexivity.
  - congruence.
  - reflexivity.
Qed.

Lemma resolveShortRefs_copy c t :
  match_quoted_ref (String c t) = None →
  resolveShortRefs (String c t) = String c (resolveShortRefs t).
Proof. apply resolveShortRefs_skip. Qed.

Lemma match_quoted_ref_None s q ds rest :
  match_quoted_ref s = None →
  is_quote q = true → all_digits ds = true → ds ≠ "" →
  s ≠ String q (String "@" (String "e" (ds ++ String q rest))).
Proof.
  intros Hn Hq Hd Hne Hs.
  rewrite (match_quoted_ref_spec s q ds rest Hq Hd Hne Hs) in Hn.
  discriminate.
Qed.

Lemma resolveShortRefs_resolves s : resolves s (resolveShortRefs s).
Proof.
  funelim (resolveShortRefs s).
  - constructor.
  - destruct (match_quoted_ref_shape _ _ _ _ e) as (ds & Hq & Hd & Hne & -> & Hs).
    rewrite Hs. simpl. now constructor.
  - constructor; [|assumption].
    intros q ds rest. now apply match_quoted_ref_None.
Qed.

Lemma resolves_unique s out : resolves s out → out = resolveShortRefs s.
Proof.
  induction 1 as [|q ds rest out Hq Hd Hne _ IH|c t out Hno _ IH].
  - reflexivity.
  - rewrite (resolveShortRefs_match _ q (String "e" ds) rest)
      by now apply match_quoted_ref_spec.
    now rewrite IH.
  - rewrite resolveShortRefs_copy; [now rewrite IH|].
    destruct (match_quoted_ref (String c t)) as [[[q ref] rest]|] eqn:Hm;
      [|reflexivity].
    destruct (match_quoted_ref_shape _ _ _ _ Hm) as (ds & Hq & Hd & Hne & -> & Hs).
    now destruct (Hno q ds rest).
Qed.

Lemma resolveShortRefs_no_quoted_ref s :
  has_quoted_ref s = false → resolveShortRefs s = s.
Proof.
  induction s as [|c t IH]; [reflexivity|].
  cbn [has_quoted_ref].
  destruct (match_quoted_ref (String c t)) eqn:Hm; [discriminate|].
  intros Ht. rewrite resolveShortRefs_copy by assumption. now rewrite IH.
Qed.

Lemma match_quoted_ref_not_quote p s :
  is_quote p = false → match_quoted_ref (String p s) = None.
Proof.
  intros Hp. unfold match_quoted_ref. destruct s as [|a [|e t]]; try reflexivity.
  now rewrite Hp.
Qed.

Lemma rewrite_every_copy prev c t :
  match prev with
  | Some p => match_quoted_ref (String p (String c t)) = None
  | None => True
  end →
  rewrite_every prev (String c t) = String c (rewrite_every (Some c) t).
Proof.
  cbn [rewrite_every]. destruct prev as [p|]; [|reflexivity].
  now intros ->.
Qed.

Lemma digit_not_quote d : is_digit d = true → is_quote d = false.
Proof.
  intros Hd. destruct (is_quote d) eqn:Hq; [|reflexivity].
  apply quote_not_digit in Hq. congruence.
Qed.

Lemma rewrite_every_digits ds p q rest :
  is_quote p = false → all_digits ds = true →
  rewrite_every (Some p) (ds ++ String q rest)
  = ds ++ String q (rewrite_every (Some q) rest).
Proof.
  revert p; induction ds as [|d ds IH]; intros p Hp Hd;
    cbn [String.append all_digits] in *.
  - apply rewrite_every_copy. now apply match_quoted_ref_not_quote.
  - apply andb_true_iff in Hd as [Hd Hds].
    rewrite rewrite_every_copy by now apply match_quoted_ref_not_quote.
    f_equal. apply IH; [now apply digit_not_quote | assumption].
Qed.

Lemma shares_quote_tail c t : shares_quote (String c t) = false → shares_quote t = false.
Proof.
  cbn [shares_quote].
  destruct (match_quoted_ref (String c t)) as [[[q ref] rest]|]; [|auto].
  destruct (match_quoted_ref (String q rest)); [discriminate | auto].
Qed.

Lemma shares_quote_suffix a b : shares_quote (a ++ b) = false → shares_quote b = false.
Proof.
  induction a as [|c a IH]; simpl; [auto|].
  intros H. apply IH. eapply shares_quote_tail. exact H.
Qed.

Lemma rewrite_every_resolve n : ∀ s prev,
  (String.length s ≤ n)%nat →
  shares_quote s = false →
  match prev with
  | Some p => match_quoted_ref (String p s) = None
  | None => True
  end →
  rewrite_every prev s = resolveShortRefs s.
Proof.
  induction n as [|n IH]; intros [|c t] prev Hlen Hsh Hprev;
    try reflexivity; simpl in Hlen; [lia|].
  rewrite rewrite_every_copy by assumption.
  destruct (match_quoted_ref (String c t)) as [[[q ref] rest]|] eqn:Hm.
  - rewrite (resolveShortRefs_match _ _ _ _ Hm).
    destruct (match_quoted_ref_shape _ _ _ _ Hm) as (ds & Hq & Hd & Hne & -> & Hs).
    injection Hs as -> ->.
    cbn [rewrite_every]. rewrite Hm.
    rewrite match_quoted_ref_not_quote by reflexivity.
    cbn [String.append]. do 11 f_equal.
    rewrite rewrite_every_digits by (reflexivity || assumption).
    do 2 f_equal. apply IH.
    + simpl in Hlen. rewrite string_app_length in Hlen. simpl in Hlen. lia.
    + apply (shares_quote_suffix (String q (String "@" (String "e" (ds ++ String q EmptyString))))).
      simpl. rewrite string_app_assoc. exact Hsh.
    + cbn [shares_quote] in Hsh. rewrite Hm in Hsh.
      destruct (match_quoted_ref (String q rest)); [discriminate|reflexivity].
  - rewrite resolveShortRefs_copy by assumption. f_equal.
    apply IH; [lia | now apply shares_quote_tail in Hsh | assumption].
Qed.

Lemma has_quoted_ref_spec s :
  has_quoted_ref s = true ↔
  ∃ pre q ds post, is_quote q = true ∧ all_digits ds = true ∧ ds ≠ "" ∧
    s = pre ++ String q (String "@" (String "e" (ds ++ String q post))).
Proof.
  induction s as [|c t IH].
  - split; [discriminate|]. intros (pre & q & ds & post & _ & _ & _ & Hs).
    destruct pre; discriminate.
  - cbn [has_quoted_ref].
    destruct (match_quoted_ref (String c t)) as [[[q ref] rest]|] eqn:Hm.
    + split; [intros _|reflexivity].
      destruct (match_quoted_ref_shape _ _ _ _ Hm)
        as (ds & Hq & Hd & Hne & -> & Hs).
      exists EmptyString, q, ds, rest. now rewrite Hs.
    + rewrite IH. split.
      * intros (pre & q & ds & post & Hq & Hd & Hne & ->).
        exists (String c pre), q, ds, post. now repeat split.
      * intros (pre & q & ds & post & Hq & Hd & Hne & Hs).
        destruct pre as [|c' pre].
        -- now destruct (match_quoted_ref_None _ q ds post Hm Hq Hd Hne).
        -- injection Hs as -> ->. exists pre, q, ds, post. now repeat split.
Qed.

(** C9 (as amended).  [resolveShortRefs] performs the left-to-right
    rewriting [resolves], and nothing else does; where no quote closes one
    quoted ref and opens the next, that is the rewriting of every quoted
    ref; and input without a quoted ref comes back unchanged. *)
Theorem resolveShortRefs_spec (s : string) :
  resolves s (resolveShortRefs s) ∧
  (∀ out, resolves s out → out = resolveShortRefs s) ∧
  (shares_quote s = false →
     resolveShortRefs s = rewrite_every_quoted_ref s) ∧
  (has_quoted_ref s = false → resolveShortRefs s = s).
Proof.
  repeat split.
  - apply resolveShortRefs_resolves.
  - apply resolves_unique.
  - intros Hsh. symmetry. now apply (rewrite_every_resolve (String.length s)).
  - apply resolveShortRefs_no_quoted_ref.
Qed.

(** C9 as stated fails where two quoted refs share a quote: the second
    one is enclosed in matching quotes and is left as it was. *)
Lemma resolveShortRefs_shared_quote :
  resolveShortRefs "'@e1'@e2'" = "'aria-ref=e1'@e2'" ∧
  rewrite_every_quoted_ref "'@e1'@e2'" = "'aria-ref=e1'aria-ref=e2'" ∧
  has_quoted_ref (resolveShortRefs "'@e1'@e2'") = true ∧
  resolveShortRefs "'@e1'@e2'" ≠ rewrite_every_quoted_ref "'@e1'@e2'".
Proof. repeat split; try reflexivity. vm_compute. discriminate. Qed.

Example resolveShortRefs_single :
  resolveShortRefs "await page.locator('@e5').click()"
  = "await page.locator('aria-ref=e5').click()".
Proof. reflexivity. Qed.

Example resolveShortRefs_backquote :
  resolveShortRefs "await page.locator(`@e3`).click()"
  = "await page.locator(`aria-ref=e3`).click()".
Proof. reflexivity. Qed.

Example resolveShortRefs_unquoted :
  resolveShortRefs "click @e16 button" = "click @e16 button".
Proof. reflexivity. Qed.

Example extractRefs_test :
  extractRefs "click @e5 then @e16 and @e5 again" = ["e5"; "e16"].
Proof. reflexivity. Qed.

Lemma Set_add_fold (l acc : list string) :
  fold_left Set_add l acc
  = (acc ++ filter (λ y, y ∉ acc) (first_occurrences l))%list.
Proof.
  revert acc; induction l as [|x t IH]; intros acc; simpl.
  - now rewrite app_nil_r.
  - rewrite IH. unfold Set_add. case_bool_decide as Hx.
    + f_equal. rewrite filter_cons_False by (intros H; now apply H).
      rewrite list_filter_filter. apply list_filter_iff.
      intros y. split; [|tauto]. intros Hy.
      split; first [exact Hy | intros ->; contradiction].
    + rewrite filter_cons_True by assumption. rewrite <- app_assoc. simpl.
      do 2 f_equal. rewrite list_filter_filter. apply list_filter_iff.
      intros y. rewrite not_elem_of_app, list_elem_of_singleton. tauto.
Qed.

Lemma Set_of_first_occurrences l : Set_of l = first_occurrences l.
Proof.
  unfold Set_of. rewrite Set_add_fold. simpl.
  induction (first_occurrences l) as [|y t IH]; [reflexivity|].
  rewrite filter_cons_True by apply not_elem_of_nil. now f_equal.
Qed.

Lemma first_occurrences_elem x l : x ∈ first_occurrences l ↔ x ∈ l.
Proof.
  induction l as [|y t IH]; simpl; [reflexivity|].
  rewrite !elem_of_cons, list_elem_of_filter, IH.
  destruct (decide (x = y)); tauto.
Qed.

Lemma first_occurrences_NoDup l : NoDup (first_occurrences l).
Proof.
  induction l as [|y t IH]; simpl; constructor.
  - rewrite list_elem_of_filter. tauto.
  - now apply NoDup_filter.
Qed.

Lemma first_index_elem x l : x ∈ l → ∃ p, first_index x l = Some p.
Proof.
  induction l as [|y t IH]; [intros Hx; inversion Hx|].
  simpl. rewrite elem_of_cons. case_decide; [eauto|].
  intros [?|Ht]; [contradiction|]. destruct (IH Ht) as [p ->]. simpl. eauto.
Qed.

Lemma filter_lookup_order (P : string → Prop) `{∀ x, Decision (P x)}
    (l : list string) i j a b :
  filter P l !! i = Some a → filter P l !! j = Some b → (i < j)%nat →
  ∃ i' j', l !! i' = Some a ∧ l !! j' = Some b ∧ (i' < j')%nat.
Proof.
  revert i j; induction l as [|y t IH]; intros i j; [discriminate|].
  rewrite filter_cons. case_decide.
  - destruct i as [|i], j as [|j]; simpl; try lia.
    + intros [= ->] Hb _. exists 0%nat.
      apply list_elem_of_lookup_2, list_elem_of_filter in Hb as [_ Hb].
      apply list_elem_of_lookup_1 in Hb as [k Hk]. exists (S k). simpl.
      repeat split; [assumption | lia].
    + intros Ha Hb Hlt. destruct (IH i j Ha Hb) as (i' & j' & ? & ? & ?); [lia|].
      exists (S i'), (S j'). simpl. repeat split; [assumption.. | lia].
  - intros Ha Hb Hlt. destruct (IH i j Ha Hb Hlt) as (i' & j' & ? & ? & ?).
    exists (S i'), (S j'). simpl. repeat split; [assumption.. | lia].
Qed.

Lemma first_occurrences_order l i j a b :
  first_occurrences l !! i = Some a → first_occurrences l !! j = Some b →
  (i < j)%nat →
  ∃ p q, first_index a l = Some p ∧ first_index b l = Some q ∧ (p < q)%nat.
Proof.
  revert i j; induction l as [|y t IH]; intros i j; [discriminate|].
  simpl. destruct i as [|i], j as [|j]; simpl; try lia.
  - intros [= ->] Hb _. rewrite decide_True by reflexivity.
    apply list_elem_of_lookup_2, list_elem_of_filter in Hb as [Hne Hb].
    rewrite first_occurrences_elem in Hb.
    apply first_index_elem in Hb as [q Hq].
    rewrite decide_False by assumption. rewrite Hq. simpl.
    exists 0%nat, (S q). repeat split. lia.
  - intros Ha Hb Hlt.
    pose proof (list_elem_of_lookup_2 _ _ _ Ha) as Ha'.
    pose proof (list_elem_of_lookup_2 _ _ _ Hb) as Hb'.
    apply list_elem_of_filter in Ha' as [Hna _], Hb' as [Hnb _].
    destruct (filter_lookup_order _ _ _ _ _ _ Ha Hb) as (i' & j' & Hi & Hj & ?);
      [lia|].
    destruct (IH _ _ Hi Hj) as (p & q & Hp & Hq & ?); [assumption|].
    rewrite !decide_False by assumption. rewrite Hp, Hq. simpl.
    exists (S p), (S q). repeat split. lia.
Qed.

Lemma hasShortRefs_match_all s : hasShortRefs s = true ↔ match_all s ≠ [].
Proof.
  funelim (match_all s).
  - simpl. split; [discriminate | congruence].
  - cbn [hasShortRefs]. rewrite e. split; [discriminate | reflexivity].
  - cbn [hasShortRefs]. rewrite e. assumption.
Qed.

Lemma match_short_ref_shape s m rest :
  match_short_ref s = Some (m, rest) →
  ∃ ds, m = String "@" (String "e" ds) ∧ all_digits ds = true ∧ ds ≠ "" ∧
        s = m ++ rest.
Proof.
  unfold match_short_ref. destruct s as [|a [|e t]]; try discriminate.
  destruct (Ascii.eqb a "@" && Ascii.eqb e "e") eqn:Hh; [|discriminate].
  apply andb_true_iff in Hh as [Ha He]. apply Ascii.eqb_eq in Ha, He.
  subst a e.
  destruct (span_digits t) as [[|d ds] r] eqn:Hs; [discriminate|].
  intros [= <- <-]. exists (String d ds). repeat split.
  - eapply span_digits_digits; eassumption.
  - discriminate.
  - simpl. do 2 f_equal. apply (span_digits_app _ _ _ Hs).
Qed.

Lemma match_all_shape s m :
  m ∈ match_all s → ∃ ds, m = String "@" (String "e" ds).
Proof.
  funelim (match_all s).
  - intros Hm. inversion Hm.
  - rewrite elem_of_cons. intros [Heq | Hm]; [|auto].
    destruct (match_short_ref_shape _ _ _ e) as (ds & Hds & _).
    exists ds. congruence.
  - auto.
Qed.

Lemma extractRefs_first_occurrences s :
  extractRefs s = first_occurrences (map slice1 (match_all s)).
Proof.
  unfold extractRefs, String_match.
  destruct (match_all s) as [|m ms]; [reflexivity|].
  apply Set_of_first_occurrences.
Qed.

(** C10.  [hasShortRefs] answers whether [extractRefs] finds anything, and
    [extractRefs] lists the matches of [/@e\d+/g] without their [@]: no ref
    twice, every matched ref present, and refs ordered as their first
    occurrences among the matches are. *)
Theorem extractRefs_spec (s : string) :
  (hasShortRefs s = true ↔ extractRefs s ≠ []) ∧
  NoDup (extractRefs s) ∧
  (∀ r, r ∈ extractRefs s ↔ String "@" r ∈ match_all s) ∧
  (∀ i j a b,
      extractRefs s !! i = Some a → extractRefs s !! j = Some b →
      (i < j)%nat →
      ∃ p q, first_index a (map slice1 (match_all s)) = Some p ∧
             first_index b (map slice1 (match_all s)) = Some q ∧
             (p < q)%nat).
Proof.
  rewrite extractRefs_first_occurrences. split; [|repeat split].
  - rewrite hasShortRefs_match_all.
    destruct (match_all s); simpl; split; try done; intros H; now destruct H.
  - apply first_occurrences_NoDup.
  - rewrite first_occurrences_elem, list_elem_of_fmap.
    intros (m & -> & Hm). destruct (match_all_shape _ _ Hm) as [ds ->].
    exact Hm.
  - intros Hm. rewrite first_occurrences_elem, list_elem_of_fmap.
    eexists. split; [|exact Hm]. reflexivity.
  - apply first_occurrences_order.
Qed.


(** *** [addShortRefPrefix] *)

(** [s] without the prefix [p], when it has it. *)
Fixpoint strip_prefix (p s : string) : option string :=
  match p, s with
  | EmptyString, _ => Some s
  | String a p', String b s' =>
      if Ascii.eqb a b then strip_prefix p' s' else None
  | String _ _, EmptyString => None
  end.

(** One attempt of [/\[ref=(e\d+)\]/] at the head of [s]: the ref (group
    1) and the input after the match.  As before the greedy [\d+] loses
    nothing: after a shorter run comes a digit, not the closing bracket. *)
Definition match_bracket_ref (s : string) : option (string * string) :=
  match strip_prefix "[ref=e" s with
  | Some t =>
      match span_digits t with
      | (String d ds, String c rest) =>
          if Ascii.eqb c "]" then Some (String "e" (String d ds), rest)
          else None
      | _ => None
      end
  | None => None
  end.

Lemma strip_prefix_spec p s t : strip_prefix p s = Some t ↔ s = p ++ t.
Proof.
  revert s; induction p as [|a p IH]; intros s; simpl.
  - split; [now intros [= ->] | now intros ->].
  - destruct s as [|b s]; [split; discriminate|].
    destruct (Ascii.eqb a b) eqn:Hab.
    + apply Ascii.eqb_eq in Hab as ->. rewrite IH.
      split; [now intros -> | now intros [= ->]].
    + split; [discriminate|]. intros [= -> _].
      now rewrite Ascii.eqb_refl in Hab.
Qed.

Lemma match_bracket_ref_shape s ref rest :
  match_bracket_ref s = Some (ref, rest) →
  ∃ ds, all_digits ds = true ∧ ds ≠ "" ∧ ref = String "e" ds ∧
        s = "[ref=" ++ ref ++ String "]" rest.
Proof.
  unfold match_bracket_ref.
  destruct (strip_prefix "[ref=e" s) as [t|] eqn:Hp; [|discriminate].
  apply strip_prefix_spec in Hp as ->.
  destruct (span_digits t) as [[|d ds] [|c r]] eqn:Hs; try discriminate.
  destruct (Ascii.eqb c "]") eqn:Hc; [|discriminate].
  apply Ascii.eqb_eq in Hc as ->. intros [= <- <-].
  exists (String d ds). repeat split.
  - eapply span_digits_digits; eassumption.
  - discriminate.
  - simpl. do 6 f_equal. apply (span_digits_app _ _ _ Hs).
Qed.

Lemma match_bracket_ref_shorter s ref rest :
  match_bracket_ref s = Some (ref, rest) →
  (String.length rest < String.length s)%nat.
Proof.
  intros H. apply match_bracket_ref_shape in H as (ds & _ & _ & -> & ->).
  simpl. rewrite string_app_length. simpl. lia.
Qed.

(** [snapshot.replace(/\[ref=(e\d+)\]/g, '[ref=@$1]')] *)
Equations? addShortRefPrefix (snapshot : string) : string
  by wf (String.length snapshot) lt :=
  addShortRefPrefix EmptyString := EmptyString;
  addShortRefPrefix (String c t)
    with inspect (match_bracket_ref (String c t)) := {
    | exist _ (Some (ref, rest)) _ :=
        "[ref=@" ++ ref ++ String "]" (addShortRefPrefix rest);
    | exist _ None _ := String c (addShortRefPrefix t) }.
Proof.
  - eapply match_bracket_ref_shorter; eassumption.
  - simpl. lia.
Qed.

(** Is there a position where the bracketed expression matches. *)
Fixpoint has_bracket_ref (s : string) : bool :=
  match s with
  | EmptyString => false
  | String _ t =>
      match match_bracket_ref s with
      | Some _ => true
      | None => has_bracket_ref t
      end
  end.

#[global] Arguments match_bracket_ref : simpl never.

Example addShortRefPrefix_test :
  addShortRefPrefix "- link [ref=e5] [cursor=pointer]:"
  = "- link [ref=@e5] [cursor=pointer]:".
Proof. reflexivity. Qed.


Lemma match_bracket_ref_spec ds rest :
  all_digits ds = true → ds ≠ "" →
  match_bracket_ref ("[ref=e" ++ ds ++ String "]" rest)
  = Some (String "e" ds, rest).
Proof.
  intros Hd Hne. unfold match_bracket_ref.
  rewrite (proj2 (strip_prefix_spec "[ref=e" _ (ds ++ String "]" rest)))
    by reflexivity.
  rewrite (span_digits_unique ds (String "]" rest) Hd) by reflexivity.
  destruct ds as [|d ds]; [congruence|]. reflexivity.
Qed.

Lemma match_bracket_ref_head c t :
  Ascii.eqb c "[" = false → match_bracket_ref (String c t) = None.
Proof.
  intros Hc. unfold match_bracket_ref. cbn [strip_prefix].
  rewrite Ascii.eqb_sym, Hc. reflexivity.
Qed.

Lemma match_bracket_ref_prefixed x :
  match_bracket_ref (String "[" (String "r" (String "e" (String "f"
                      (String "=" (String "@" x)))))) = None.
Proof. reflexivity. Qed.

Lemma addShortRefPrefix_match s ref rest :
  match_bracket_ref s = Some (ref, rest) →
  addShortRefPrefix s
  = "[ref=@" ++ ref ++ String "]" (addShortRefPrefix rest).
Proof.
  funelim (addShortRefPrefix s); intros Hm.
  - discriminate.
  - rewrite e in Hm. now injection Hm as <- <-.
  - congruence.
Qed.

Lemma addShortRefPrefix_skip s :
  match_bracket_ref s = None →
  addShortRefPrefix s
  = match s with
    | String c t => String c (addShortRefPrefix t)
    | EmptyString => EmptyString
    end.
Proof.
  funelim (addShortRefPrefix s); intros Hm.
  - reflexivity.
  - congruence.
  - reflexivity.
Qed.

Lemma addShortRefPrefix_no_bracket_ref s :
  has_bracket_ref s = false → addShortRefPrefix s = s.
Proof.
  induction s as [|c t IH]; [reflexivity|].
  cbn [has_bracket_ref].
  destruct (match_bracket_ref (String c t)) eqn:Hm; [discriminate|].
  intros Ht. rewrite addShortRefPrefix_skip by assumption. now rewrite IH.
Qed.

(** A unit of the output that is not an opening bracket was copied. *)
Lemma addShortRefPrefix_head t a r :
  addShortRefPrefix t = String a r → Ascii.eqb a "[" = false →
  ∃ t1, t = String a t1 ∧ r = addShortRefPrefix t1.
Proof.
  intros Hout Ha.
  destruct (match_bracket_ref t) as [[ref rest]|] eqn:Hm.
  - rewrite (addShortRefPrefix_match _ _ _ Hm) in Hout.
    injection Hout as <- _. discriminate.
  - rewrite (addShortRefPrefix_skip _ Hm) in Hout.
    destruct t as [|c t1]; [discriminate|].
    injection Hout as -> <-. eauto.
Qed.

Lemma addShortRefPrefix_prefix p : ∀ t r,
  free_of "[" p = true → addShortRefPrefix t = p ++ r →
  ∃ t', t = p ++ t' ∧ r = addShortRefPrefix t'.
Proof.
  induction p as [|a p IH]; intros t r Hp Hout; simpl in *; [eauto|].
  apply andb_true_iff in Hp as [Ha Hp]. apply negb_true_iff in Ha.
  destruct (addShortRefPrefix_head _ _ _ Hout Ha) as (t1 & -> & Hr).
  destruct (IH t1 r Hp (eq_sym Hr)) as (t' & -> & ->). eauto.
Qed.

Lemma has_bracket_ref_free p t :
  free_of "[" p = true → has_bracket_ref (p ++ t) = has_bracket_ref t.
Proof.
  induction p as [|a p IH]; simpl; [reflexivity|].
  rewrite andb_true_iff, negb_true_iff. intros [Ha Hp].
  rewrite match_bracket_ref_head by assumption. auto.
Qed.

Lemma addShortRefPrefix_no_match_left c t :
  match_bracket_ref (String c t) = None →
  match_bracket_ref (String c (addShortRefPrefix t)) = None.
Proof.
  intros Hm.
  destruct (match_bracket_ref (String c (addShortRefPrefix t)))
    as [[ref rest]|] eqn:Hout; [|reflexivity].
  apply match_bracket_ref_shape in Hout as (ds & Hd & Hne & -> & Hs).
  injection Hs as -> Hs.
  destruct (addShortRefPrefix_prefix ("ref=e" ++ ds ++ "]") t rest)
    as (t' & -> & _).
  - rewrite !free_of_app, (free_of_digits "[" ds) by easy. reflexivity.
  - rewrite Hs. now string_norm.
  - replace (String "[" (("ref=e" ++ ds ++ "]") ++ t'))
      with ("[ref=e" ++ ds ++ String "]" t') in Hm by now string_norm.
    rewrite match_bracket_ref_spec in Hm by assumption. discriminate.
Qed.

Lemma addShortRefPrefix_bracket_free s :
  has_bracket_ref (addShortRefPrefix s) = false.
Proof.
  funelim (addShortRefPrefix s).
  - reflexivity.
  - destruct (match_bracket_ref_shape _ _ _ e) as (ds & Hd & Hne & -> & _).
    cbn [String.append has_bracket_ref].
    rewrite match_bracket_ref_prefixed.
    replace (String "r" (String "e" (String "f" (String "="
               (String "@" (String "e" (ds ++ String "]"
                  (addShortRefPrefix rest))))))))
      with (("ref=@e" ++ ds ++ "]") ++ addShortRefPrefix rest)
      by now string_norm.
    rewrite has_bracket_ref_free; [assumption|].
    first [ now apply free_of_digits
          | rewrite !free_of_app, (free_of_digits "[" ds) by easy;
            reflexivity ].
  - cbn [has_bracket_ref].
    now rewrite addShortRefPrefix_no_match_left.
Qed.

Lemma addShortRefPrefix_length s :
  (String.length s ≤ String.length (addShortRefPrefix s))%nat ∧
  (has_bracket_ref s = true →
   String.length s < String.length (addShortRefPrefix s))%nat.
Proof.
  funelim (addShortRefPrefix s).
  - split; [reflexivity | discriminate].
  - destruct (match_bracket_ref_shape _ _ _ e) as (ds & Hd & Hne & -> & Hs).
    rewrite Hs. destruct H as [Hle _].
    cbn [String.append String.length]. rewrite !string_app_length.
    cbn [String.length]. split; intros; lia.
  - destruct H as [Hle Hlt]. cbn [String.length has_bracket_ref].
    rewrite e. split; [lia|]. intros Hb. specialize (Hlt Hb). lia.
Qed.

(** X1.  Prefixing is idempotent: the refs of the output are all of the
    form [[ref=@eN]], which the expression does not match, and no new
    [[ref=eN]] is formed where a rewritten ref meets copied text. *)
Theorem addShortRefPrefix_idempotent (s : string) :
  addShortRefPrefix (addShortRefPrefix s) = addShortRefPrefix s.
Proof.
  apply addShortRefPrefix_no_bracket_ref, addShortRefPrefix_bracket_free.
Qed.

(** X2.  A snapshot comes back unchanged exactly when it holds no
    [[ref=eN]]; the output is never shorter than the snapshot, and longer
    exactly when the snapshot holds one. *)
Theorem addShortRefPrefix_unchanged_iff (s : string) :
  (addShortRefPrefix s = s ↔ has_bracket_ref s = false) ∧
  (String.length s ≤ String.length (addShortRefPrefix s))%nat ∧
  ((String.length s < String.length (addShortRefPrefix s))%nat ↔
   has_bracket_ref s = true).
Proof.
  destruct (addShortRefPrefix_length s) as [Hle Hlt].
  split; [|split; [exact Hle|]]; split.
  - intros Heq. destruct (has_bracket_ref s); [|reflexivity].
    specialize (Hlt eq_refl). rewrite Heq in Hlt. lia.
  - apply addShortRefPrefix_no_bracket_ref.
  - intros Hlen. destruct (has_bracket_ref s) eqn:Hb; [reflexivity|].
    rewrite (addShortRefPrefix_no_bracket_ref s Hb) in Hlen. lia.
  - exact Hlt.
Qed.


Lemma addShortRefPrefix_occurrence ds post n : ∀ pre,
  (String.length pre ≤ n)%nat → all_digits ds = true → ds ≠ "" →
  ∃ pre',
    addShortRefPrefix (pre ++ "[ref=e" ++ ds ++ String "]" post)
    = pre' ++ "[ref=@e" ++ ds ++ String "]" (addShortRefPrefix post).
Proof.
  induction n as [|n IH]; intros pre Hlen Hd Hne.
  - destruct pre; [|simpl in Hlen; lia]. exists "".
    cbn [String.append].
    rewrite (addShortRefPrefix_match _ (String "e" ds) post);
      [reflexivity | exact (match_bracket_ref_spec ds post Hd Hne)].
  - destruct pre as [|c pre]; [apply (IH ""); simpl; [lia|assumption..]|].
    rewrite (string_app_cons c pre).
    destruct (match_bracket_ref
                (String c (pre ++ "[ref=e" ++ ds ++ String "]" post)))
      as [[ref rest]|] eqn:Hm.
    + rewrite (addShortRefPrefix_match _ _ _ Hm).
      destruct (match_bracket_ref_shape _ _ _ Hm)
        as (ds' & Hd' & Hne' & -> & Hs).
      cbn [String.append] in Hs. injection Hs as -> Hs.
      destruct (free_prefix_split "[" ("ref=e" ++ ds' ++ "]") rest pre
                  ("ref=e" ++ ds ++ String "]" post)) as (k & -> & ->).
      * rewrite !free_of_app, (free_of_digits "[" ds') by easy.
        reflexivity.
      * string_norm. string_norm_in Hs. symmetry. exact Hs.
      * destruct (IH k) as [pre' Hk]; [|assumption..|].
        { simpl in Hlen. rewrite !string_app_length in Hlen.
          simpl in Hlen. lia. }
        exists ("[ref=@e" ++ ds' ++ "]" ++ pre').
        string_norm_in Hk. string_norm. now rewrite Hk.
    + rewrite (addShortRefPrefix_skip _ Hm).
      destruct (IH pre) as [pre' Hk]; [simpl in Hlen; lia|assumption..|].
      exists (String c pre').
      string_norm_in Hk. string_norm. now rewrite Hk.
Qed.

Lemma match_all_match s m rest :
  match_short_ref s = Some (m, rest) → match_all s = m :: match_all rest.
Proof.
  funelim (match_all s); intros Hm.
  - discriminate.
  - rewrite e in Hm. now injection Hm as <- <-.
  - congruence.
Qed.

Lemma match_all_none s :
  match_short_ref s = None →
  match_all s = match s with
                | String _ t => match_all t
                | EmptyString => []
                end.
Proof.
  funelim (match_all s); intros Hm.
  - reflexivity.
  - congruence.
  - reflexivity.
Qed.

Lemma match_all_skip c t :
  match_short_ref (String c t) = None → match_all (String c t) = match_all t.
Proof. apply match_all_none. Qed.

Lemma match_short_ref_spec ds post :
  all_digits ds = true → ds ≠ "" → head_is_digit post = false →
  match_short_ref ("@e" ++ ds ++ post) = Some ("@e" ++ ds, post).
Proof.
  intros Hd Hne Hp. unfold match_short_ref. cbn [String.append].
  rewrite !Ascii.eqb_refl. cbn [andb].
  rewrite (span_digits_unique ds post Hd Hp).
  destruct ds as [|d ds]; [congruence|]. reflexivity.
Qed.

Lemma match_all_occurrence ds post n : ∀ pre,
  (String.length pre ≤ n)%nat → all_digits ds = true → ds ≠ "" →
  head_is_digit post = false →
  "@e" ++ ds ∈ match_all (pre ++ "@e" ++ ds ++ post).
Proof.
  induction n as [|n IH]; intros pre Hlen Hd Hne Hp.
  - destruct pre; [|simpl in Hlen; lia]. cbn [String.append].
    rewrite (match_all_match _ ("@e" ++ ds) post);
      [constructor | exact (match_short_ref_spec ds post Hd Hne Hp)].
  - destruct pre as [|c pre]; [apply (IH ""); simpl; [lia|assumption..]|].
    rewrite (string_app_cons c pre).
    destruct (match_short_ref (String c (pre ++ "@e" ++ ds ++ post)))
      as [[m rest]|] eqn:Hm.
    + rewrite (match_all_match _ _ _ Hm). apply elem_of_cons. right.
      destruct (match_short_ref_shape _ _ _ Hm)
        as (ds' & -> & Hd' & Hne' & Hs).
      cbn [String.append] in Hs. injection Hs as -> Hs.
      destruct (free_prefix_split "@" (String "e" ds') rest pre
                  ("e" ++ ds ++ post)) as (k & -> & ->).
      * cbn [free_of]. now rewrite (free_of_digits "@" ds').
      * symmetry. exact Hs.
      * apply (IH k); [|assumption..].
        simpl in Hlen. rewrite !string_app_length in Hlen.
        simpl in Hlen. lia.
    + rewrite (match_all_skip _ _ Hm). apply (IH pre); [|assumption..].
      simpl in Hlen. lia.
Qed.

(** X3.  Prefixing makes every [[ref=eN]] of a snapshot a short ref:
    whatever surrounds it, [eN] is among the refs extracted from the
    output. *)
Theorem addShortRefPrefix_extractRefs (pre ds post : string) :
  all_digits ds = true → ds ≠ "" →
  String "e" ds
  ∈ extractRefs (addShortRefPrefix (pre ++ "[ref=e" ++ ds ++ String "]" post)).
Proof.
  intros Hd Hne.
  destruct (addShortRefPrefix_occurrence ds post (String.length pre) pre)
    as [pre' ->]; [lia|assumption..|].
  rewrite extractRefs_first_occurrences, first_occurrences_elem.
  apply list_elem_of_fmap. exists ("@e" ++ ds). split; [reflexivity|].
  replace (pre' ++ "[ref=@e" ++ ds ++ String "]" (addShortRefPrefix post))
    with ((pre' ++ "[ref=") ++ "@e" ++ ds
            ++ String "]" (addShortRefPrefix post)) by now string_norm.
  now apply (match_all_occurrence ds _ (String.length (pre' ++ "[ref="))).
Qed.

Lemma addShortRefPrefix_extractRefs_witness :
  "e16"
  ∈ extractRefs (addShortRefPrefix ("- link " ++ "[ref=e" ++ "16" ++ "] [cursor]")).
Proof.
  apply (addShortRefPrefix_extractRefs "- link " "16" " [cursor]");
    [reflexivity | discriminate].
Defined.

(** *** More on [resolveShortRefs], [hasShortRefs] and [extractRefs] *)

(** No unit of [s] is a quote. *)
Fixpoint quote_free (s : string) : bool :=
  match s with
  | EmptyString => true
  | String a t => negb (is_quote a) && quote_free t
  end.

Lemma quote_free_digits ds : all_digits ds = true → quote_free ds = true.
Proof.
  induction ds as [|d ds IH]; simpl; [reflexivity|].
  rewrite andb_true_iff. intros [Hd Hds].
  now rewrite (digit_not_quote d Hd), IH.
Qed.

Lemma quote_free_app a b :
  quote_free (a ++ b) = quote_free a && quote_free b.
Proof.
  induction a as [|x a IH]; simpl; [reflexivity|].
  now rewrite IH, andb_assoc.
Qed.

Lemma match_quoted_ref_second q a t :
  Ascii.eqb a "@" = false → match_quoted_ref (String q (String a t)) = None.
Proof.
  intros Ha. unfold match_quoted_ref. destruct t as [|e t]; [reflexivity|].
  now rewrite Ha, andb_false_r.
Qed.

(** The first unit of the output is the first unit of the input, and a
    unit that is not a quote was copied. *)
Lemma resolveShortRefs_head t a r :
  resolveShortRefs t = String a r →
  ∃ t1, t = String a t1 ∧ (is_quote a = false → r = resolveShortRefs t1).
Proof.
  intros Hout.
  destruct (match_quoted_ref t) as [[[q ref] rest]|] eqn:Hm.
  - rewrite (resolveShortRefs_match _ _ _ _ Hm) in Hout.
    injection Hout as -> _.
    destruct (match_quoted_ref_shape _ _ _ _ Hm) as (ds & Hq & _ & _ & _ & ->).
    eexists. split; [reflexivity|]. congruence.
  - rewrite (resolveShortRefs_skip _ Hm) in Hout.
    destruct t as [|c t1]; [discriminate|].
    injection Hout as -> <-. eauto.
Qed.

Lemma resolveShortRefs_prefix p : ∀ t r,
  quote_free p = true → resolveShortRefs t = p ++ r →
  ∃ t', t = p ++ t' ∧ r = resolveShortRefs t'.
Proof.
  induction p as [|a p IH]; intros t r Hp Hout; simpl in *; [eauto|].
  apply andb_true_iff in Hp as [Ha Hp]. apply negb_true_iff in Ha.
  destruct (resolveShortRefs_head _ _ _ Hout) as (t1 & -> & Hr).
  destruct (IH t1 r Hp (eq_sym (Hr Ha))) as (t' & -> & ->). eauto.
Qed.

Lemma has_quoted_ref_free p t :
  quote_free p = true → has_quoted_ref (p ++ t) = has_quoted_ref t.
Proof.
  induction p as [|a p IH]; simpl; [reflexivity|].
  rewrite andb_true_iff, negb_true_iff. intros [Ha Hp].
  rewrite match_quoted_ref_not_quote by assumption. auto.
Qed.

Lemma has_quoted_ref_skip c t :
  match_quoted_ref (String c t) = None →
  has_quoted_ref (String c t) = has_quoted_ref t.
Proof. intros Hm. cbn [has_quoted_ref]. now rewrite Hm. Qed.

Lemma resolveShortRefs_no_match_left c t :
  match_quoted_ref (String c t) = None →
  match_quoted_ref (String c (resolveShortRefs t)) = None.
Proof.
  intros Hm.
  destruct (match_quoted_ref (String c (resolveShortRefs t)))
    as [[[q ref] rest]|] eqn:Hout; [|reflexivity].
  apply match_quoted_ref_shape in Hout as (ds & Hq & Hd & Hne & -> & Hs).
  injection Hs as -> Hs.
  destruct (resolveShortRefs_prefix ("@e" ++ ds) t (String q rest))
    as (t' & -> & Hr).
  - cbn [String.append quote_free]. now rewrite (quote_free_digits ds).
  - rewrite Hs. now string_norm.
  - destruct (resolveShortRefs_head _ _ _ (eq_sym Hr)) as (t1 & -> & _).
    rewrite (match_quoted_ref_spec _ q ds t1) in Hm;
      [discriminate | assumption.. | now string_norm].
Qed.

Lemma resolveShortRefs_quoted_ref_free s :
  shares_quote s = false → has_quoted_ref (resolveShortRefs s) = false.
Proof.
  funelim (resolveShortRefs s); intros Hsh.
  - reflexivity.
  - destruct (match_quoted_ref_shape _ _ _ _ e)
      as (ds & Hq & Hd & Hne & -> & Hs).
    assert (Hrest : shares_quote rest = false).
    { apply (shares_quote_suffix
               (String q (String "@" (String "e" (ds ++ String q ""))))).
      rewrite Hs in Hsh. simpl. rewrite string_app_assoc. exact Hsh. }
    assert (Hnext : match_quoted_ref (String q rest) = None).
    { cbn [shares_quote] in Hsh. rewrite e in Hsh.
      destruct (match_quoted_ref (String q rest)); [discriminate|reflexivity]. }
    replace (String q ("aria-ref=" ++ String "e" ds
                       ++ String q (resolveShortRefs rest)))
      with (String q (String "a" ("ria-ref=e" ++ ds)
                      ++ String q (resolveShortRefs rest)))
      by now string_norm.
    rewrite string_app_cons.
    rewrite !has_quoted_ref_skip by now apply match_quoted_ref_second.
    rewrite has_quoted_ref_free
      by (cbn [String.append quote_free];
          rewrite (quote_free_digits ds) by assumption; reflexivity).
    rewrite has_quoted_ref_skip
      by now apply resolveShortRefs_no_match_left.
    auto.
  - rewrite has_quoted_ref_skip
      by now apply resolveShortRefs_no_match_left.
    apply H. now apply shares_quote_tail in Hsh.
Qed.

Lemma hasShortRefs_here s x :
  match_short_ref s = Some x → hasShortRefs s = true.
Proof.
  destruct s as [|c t]; [discriminate|].
  cbn [hasShortRefs]. now intros ->.
Qed.

Lemma hasShortRefs_cons c t :
  hasShortRefs t = true → hasShortRefs (String c t) = true.
Proof.
  cbn [hasShortRefs]. destruct (match_short_ref (String c t)); auto.
Qed.

Lemma has_quoted_ref_hasShortRefs s :
  has_quoted_ref s = true → hasShortRefs s = true.
Proof.
  induction s as [|c t IH]; [discriminate|].
  cbn [has_quoted_ref].
  destruct (match_quoted_ref (String c t)) as [[[q ref] rest]|] eqn:Hm.
  - intros _.
    destruct (match_quoted_ref_shape _ _ _ _ Hm)
      as (ds & Hq & Hd & Hne & -> & Hs).
    rewrite Hs. apply hasShortRefs_cons.
    apply (hasShortRefs_here _ ("@e" ++ ds, String q rest)).
    replace (String "@" (String "e" ds ++ String q rest))
      with ("@e" ++ ds ++ String q rest) by now string_norm.
    apply match_short_ref_spec; [assumption.. | now apply quote_not_digit].
  - intros Ht. apply hasShortRefs_cons. auto.
Qed.

Lemma match_all_digits s m :
  m ∈ match_all s →
  ∃ ds, m = String "@" (String "e" ds) ∧ all_digits ds = true ∧ ds ≠ "".
Proof.
  funelim (match_all s).
  - intros Hm. inversion Hm.
  - rewrite elem_of_cons. intros [Heq | Hm]; [|auto].
    destruct (match_short_ref_shape _ _ _ e) as (ds & Hds & Hd & Hne & _).
    exists ds. split; [congruence | auto].
  - auto.
Qed.

Lemma span_digits_app_some t post d ds r :
  span_digits t = (String d ds, r) →
  ∃ ds' r', span_digits (t ++ post) = (String d ds', r').
Proof.
  destruct t as [|c t]; simpl; [discriminate|].
  destruct (is_digit c); [|discriminate].
  destruct (span_digits t) as [a b]. intros [= -> -> ->].
  destruct (span_digits (t ++ post)) as [a' b']. eauto.
Qed.

Lemma match_short_ref_app s post x :
  match_short_ref s = Some x → ∃ y, match_short_ref (s ++ post) = Some y.
Proof.
  unfold match_short_ref. destruct s as [|a [|e t]]; try discriminate.
  cbn [String.append].
  destruct (Ascii.eqb a "@" && Ascii.eqb e "e"); [|discriminate].
  destruct (span_digits t) as [[|d ds] r] eqn:Hs; [discriminate|].
  intros _. destruct (span_digits_app_some _ post _ _ _ Hs) as (ds' & r' & ->).
  eauto.
Qed.

Lemma hasShortRefs_app_r s post :
  hasShortRefs s = true → hasShortRefs (s ++ post) = true.
Proof.
  induction s as [|c t IH]; [discriminate|].
  cbn [hasShortRefs]. rewrite string_app_cons. cbn [hasShortRefs].
  destruct (match_short_ref (String c t)) as [x|] eqn:Hm.
  - intros _.
    destruct (match_short_ref_app _ post _ Hm) as [y Hy].
    rewrite string_app_cons in Hy. now rewrite Hy.
  - intros Ht. destruct (match_short_ref (String c (t ++ post))); auto.
Qed.

Lemma hasShortRefs_app_l pre s :
  hasShortRefs s = true → hasShortRefs (pre ++ s) = true.
Proof.
  intros Hs. induction pre as [|c pre IH]; [assumption|].
  rewrite string_app_cons. now apply hasShortRefs_cons.
Qed.

(** X4.  What [extractRefs] returns are refs: an [e] followed by a
    non-empty run of decimal digits. *)
Theorem extractRefs_shape (s r : string) :
  r ∈ extractRefs s →
  ∃ ds, r = String "e" ds ∧ all_digits ds = true ∧ ds ≠ "".
Proof.
  rewrite extractRefs_first_occurrences, first_occurrences_elem,
    list_elem_of_fmap.
  intros (m & -> & Hm).
  destruct (match_all_digits _ _ Hm) as (ds & -> & Hd & Hne). eauto.
Qed.

Lemma extractRefs_shape_witness :
  ∃ ds, "e16" = String "e" ds ∧ all_digits ds = true ∧ ds ≠ "".
Proof.
  apply (extractRefs_shape "click @e5 then @e16" "e16").
  vm_compute. apply list_elem_of_further, list_elem_of_here.
Defined.

(** X5.  Where no quote closes one quoted ref and opens the next,
    resolving leaves no quoted ref behind and resolving again changes
    nothing. *)
Theorem resolveShortRefs_idempotent (s : string) :
  shares_quote s = false →
  has_quoted_ref (resolveShortRefs s) = false ∧
  resolveShortRefs (resolveShortRefs s) = resolveShortRefs s.
Proof.
  intros Hsh.
  pose proof (resolveShortRefs_quoted_ref_free s Hsh) as Hfree.
  split; [exact Hfree | now apply resolveShortRefs_no_quoted_ref].
Qed.

Lemma resolveShortRefs_idempotent_witness :
  has_quoted_ref (resolveShortRefs "page.locator('@e5').click()") = false ∧
  resolveShortRefs (resolveShortRefs "page.locator('@e5').click()")
  = resolveShortRefs "page.locator('@e5').click()".
Proof.
  apply (resolveShortRefs_idempotent "page.locator('@e5').click()").
  reflexivity.
Defined.

(** X6.  [hasShortRefs] is a sound guard: code it rejects has no ref to
    extract and is returned by [resolveShortRefs] as it is. *)
Theorem hasShortRefs_guard (s : string) :
  hasShortRefs s = false →
  extractRefs s = [] ∧ resolveShortRefs s = s.
Proof.
  intros Hno. split.
  - rewrite extractRefs_first_occurrences.
    destruct (match_all s) as [|m ms] eqn:Hms; [reflexivity|].
    assert (hasShortRefs s = true)
      by (apply hasShortRefs_match_all; now rewrite Hms).
    congruence.
  - apply resolveShortRefs_no_quoted_ref.
    destruct (has_quoted_ref s) eqn:Hq; [|reflexivity].
    apply has_quoted_ref_hasShortRefs in Hq. congruence.
Qed.

Lemma hasShortRefs_guard_witness :
  extractRefs "page.locator('aria-ref=e5')" = [] ∧
  resolveShortRefs "page.locator('aria-ref=e5')"
  = "page.locator('aria-ref=e5')".
Proof.
  apply (hasShortRefs_guard "page.locator('aria-ref=e5')"). reflexivity.
Defined.

(** X7.  A short ref stays one whatever text is put around the code that
    holds it. *)
Theorem hasShortRefs_context (pre s post : string) :
  hasShortRefs s = true → hasShortRefs (pre ++ s ++ post) = true.
Proof.
  intros Hs. now apply hasShortRefs_app_l, hasShortRefs_app_r.
Qed.

Lemma hasShortRefs_context_witness :
  hasShortRefs ("click " ++ "@e16" ++ " button") = true.
Proof.
  apply (hasShortRefs_context "click " "@e16" " button"). reflexivity.
Defined.

End RefRegistry.

(** ** browserwright/src/utils.ts *)

Module Utils.

(** [String(n)] for an integral number. *)
Definition Number_toString (n : Z) : string :=
  NilEmpty.string_of_int (Z.to_int n).

(** The options object of [getCdpUrl]; an absent property is [None]. *)
Record CdpUrlOptions := {
  port : option Z;
  host : option string;
  token : option string
}.

Definition no_options : CdpUrlOptions :=
  {| port := None; host := None; token := None |}.

(** A string is falsy exactly when it is empty. *)
Definition truthy (s : option string) : bool :=
  match s with
  | Some (String _ _) => true
  | _ => false
  end.

(** [getCdpUrl({ port = 19988, host = '127.0.0.1', token } = {})].  The
    two effects, [crypto.randomUUID()] and [Date.now()], are inputs. *)
Definition getCdpUrl (randomUUID : string) (now : Z)
    (options : option CdpUrlOptions) : string :=
  let o := default no_options options in
  let port := default 19988%Z (port o) in
  let host := default "127.0.0.1" (host o) in
  let id := randomUUID ++ "_" ++ Number_toString now in
  let queryString :=
    if truthy (token o) then "?token=" ++ default "" (token o) else "" in
  "ws://" ++ host ++ ":" ++ Number_toString port ++ "/cdp/" ++ id
    ++ queryString.

(** The endpoint the specification names: [ws://host:port/cdp[?token=T]]. *)
Definition client_endpoint (host : string) (port : Z)
    (token : option string) : string :=
  "ws://" ++ host ++ ":" ++ Number_toString port ++ "/cdp"
    ++ match token with
       | Some t => "?token=" ++ t
       | None => ""
       end.

(** C8 (as amended).  The URL is the client endpoint with one more path
    segment, [/<uuid>_<time>], before the query; the query is there exactly
    for a non-empty token; host and port default to 127.0.0.1 and 19988. *)
Theorem getCdpUrl_form (randomUUID : string) (now : Z) (o : CdpUrlOptions) :
  getCdpUrl randomUUID now (Some o)
  = client_endpoint (default "127.0.0.1" (host o)) (default 19988%Z (port o))
      None
    ++ "/" ++ randomUUID ++ "_" ++ Number_toString now
    ++ (if truthy (token o) then "?token=" ++ default "" (token o) else "")
  ∧ getCdpUrl randomUUID now None
    = "ws://127.0.0.1:19988/cdp/" ++ randomUUID ++ "_" ++ Number_toString now
  ∧ (∀ t, token o = Some t → t ≠ "" →
       getCdpUrl randomUUID now (Some o)
       = client_endpoint (default "127.0.0.1" (host o))
           (default 19988%Z (port o)) None
         ++ "/" ++ randomUUID ++ "_" ++ Number_toString now
         ++ "?token=" ++ t).
Proof.
  unfold getCdpUrl, client_endpoint. destruct o as [p h t]. simpl.
  repeat split; intros; subst; string_norm; try reflexivity.
  destruct t0; [done|]. reflexivity.
Qed.

(** C8 as stated fails: the path does not end at [/cdp], with or without
    a token. *)
Lemma getCdpUrl_not_client_endpoint :
  getCdpUrl "123e4567-e89b-42d3-a456-426614174000" 1700000000000 None
  = "ws://127.0.0.1:19988/cdp/123e4567-e89b-42d3-a456-426614174000_1700000000000"
  ∧ getCdpUrl "123e4567-e89b-42d3-a456-426614174000" 1700000000000 None
    ≠ client_endpoint "127.0.0.1" 19988 None
  ∧ getCdpUrl "123e4567-e89b-42d3-a456-426614174000" 1700000000000
      (Some {| port := Some 9222%Z; host := Some "localhost";
               token := Some "secret-token" |})
    ≠ client_endpoint "localhost" 9222 (Some "secret-token").
Proof. repeat split; try reflexivity; vm_compute; discriminate. Qed.


(** *** The client id of the URL *)

Lemma string_of_uint_free c d :
  is_digit c = false → free_of c (NilEmpty.string_of_uint d) = true.
Proof.
  intros Hc.
  induction d as [|d IH|d IH|d IH|d IH|d IH|d IH|d IH|d IH|d IH|d IH];
    cbn [NilEmpty.string_of_uint free_of]; [reflexivity|..];
    rewrite IH, andb_true_r; apply negb_true_iff;
    (destruct (Ascii.eqb _ c) eqn:E; [|reflexivity]);
    apply Ascii.eqb_eq in E; subst c; discriminate Hc.
Qed.

(** A number in decimal holds no underscore. *)
Lemma Number_toString_free n : free_of "_" (Number_toString n) = true.
Proof.
  unfold Number_toString.
  destruct (Z.to_int n) as [d|d]; cbn [NilEmpty.string_of_int free_of].
  - now apply string_of_uint_free.
  - now rewrite string_of_uint_free.
Qed.

Lemma Number_toString_inj n m :
  Number_toString n = Number_toString m → n = m.
Proof.
  unfold Number_toString. intros Heq.
  apply (f_equal NilEmpty.int_of_string) in Heq.
  rewrite !NilEmpty.isi in Heq. injection Heq as Heq.
  apply (f_equal Z.of_int) in Heq. now rewrite !DecimalZ.of_to in Heq.
Qed.

(** X8.  With the options fixed, the URL determines the UUID and the
    time it was built from: two calls give the same URL only for the same
    UUID and the same time. *)
Theorem getCdpUrl_injective (u u' : string) (n n' : Z)
    (options : option CdpUrlOptions) :
  getCdpUrl u n options = getCdpUrl u' n' options ↔ u = u' ∧ n = n'.
Proof.
  split; [|now intros [-> ->]].
  unfold getCdpUrl. cbv zeta. intros Heq.
  apply string_app_inv_head in Heq.
  repeat (rewrite <- (string_app_assoc _ _ (if _ then _ else _)) in Heq
          || apply string_app_inv_head in Heq).
  rewrite <- !string_app_assoc in Heq.
  apply string_app_inv_tail in Heq.
  rewrite !string_app_assoc in Heq. cbn [String.append] in Heq.
  destruct (free_suffix_split "_" u u' _ _
              (Number_toString_free n) (Number_toString_free n') Heq)
    as [-> Hn].
  split; [reflexivity | now apply Number_toString_inj].
Qed.

End Utils.

(** ** The extension allowlist and the origin check

    [validateExtensionOrigin] is the check of
    [test/unit/message-parser.test.ts] (lines 361-372), which the test
    introduces as the pattern [cdp-relay.ts] uses on WebSocket origins. *)

Module ExtensionIds.

Definition PRODUCTION_EXTENSION_ID : string :=
  "jfeammnjpkecdekppnclgkkffahnhfhe".

(** [s.replace(pat, '')] with a string pattern: the first occurrence of
    [pat] is removed, the rest of [s] is kept. *)
Fixpoint String_remove_first (pat s : string) : string :=
  if startsWith pat s then String.substring (String.length pat)
                             (String.length s - String.length pat) s
  else match s with
       | String c t => String c (String_remove_first pat t)
       | EmptyString => EmptyString
       end.

Record OriginCheck := {
  valid : bool;
  extensionId : option string
}.

Section Allowlist.

(** Modelled from the spec: [extension-ids.ts] is not among the sources.
    The allowlist holds one production id plus development ids and is
    fixed at build time; the development ids are a parameter here. *)
Variable DEV_EXTENSION_IDS : list string.

Definition EXTENSION_IDS : list string :=
  PRODUCTION_EXTENSION_ID :: DEV_EXTENSION_IDS.

(** Modelled from the spec: [isOurExtension] of [extension-ids.ts], which
    the unit tests pin down as case-sensitive membership in
    [EXTENSION_IDS]. *)
Definition isOurExtension (id : string) : bool :=
  bool_decide (id ∈ EXTENSION_IDS).

Definition validateExtensionOrigin (origin : option string) : OriginCheck :=
  match origin with
  | None => {| valid := false; extensionId := None |}
  | Some o =>
      if String.eqb o "" || negb (startsWith "chrome-extension://" o)
      then {| valid := false; extensionId := None |}
      else
        let id := String_remove_first "chrome-extension://" o in
        if negb (isOurExtension id)
        then {| valid := false; extensionId := Some id |}
        else {| valid := true; extensionId := Some id |}
  end.

End Allowlist.

Lemma substring_all (s : string) : String.substring 0 (String.length s) s = s.
Proof. induction s as [|c s IH]; simpl; congruence. Qed.

Lemma substring_skip (p r : string) :
  String.substring (String.length p) (String.length r) (p ++ r) = r.
Proof. induction p as [|c p IH]; simpl; [apply substring_all | exact IH]. Qed.

Lemma String_remove_first_unfold (pat s : string) :
  String_remove_first pat s
  = if startsWith pat s
    then String.substring (String.length pat)
           (String.length s - String.length pat) s
    else match s with
         | String c t => String c (String_remove_first pat t)
         | EmptyString => EmptyString
         end.
Proof. destruct s; reflexivity. Qed.

Lemma String_remove_first_prefix (pat r : string) :
  String_remove_first pat (pat ++ r) = r.
Proof.
  rewrite String_remove_first_unfold.
  replace (startsWith pat (pat ++ r)) with true
    by (symmetry; apply startsWith_spec; eauto).
  rewrite string_app_length.
  replace (String.length pat + String.length r - String.length pat)%nat
    with (String.length r) by lia.
  apply substring_skip.
Qed.

(** The origins that pass are exactly [chrome-extension://] followed by
    an allowlisted id. *)
Lemma validateExtensionOrigin_valid devs origin :
  valid (validateExtensionOrigin devs origin) = true ↔
  ∃ id, origin = Some ("chrome-extension://" ++ id) ∧ id ∈ EXTENSION_IDS devs.
Proof.
  unfold validateExtensionOrigin. destruct origin as [o|].
  2: { split; [discriminate | intros (? & [=] & _)]. }
  destruct (String.eqb o "") eqn:He.
  { apply String.eqb_eq in He as ->. simpl. split; [discriminate|].
    intros (id & H & _). discriminate H. }
  cbn [orb].
  destruct (startsWith "chrome-extension://" o) eqn:Hs; cbn [negb].
  - apply startsWith_spec in Hs as [r ->].
    rewrite String_remove_first_prefix. unfold isOurExtension.
    case_bool_decide as Hin; cbn [negb valid].
    + split; [eauto|reflexivity].
    + split; [discriminate|]. intros (id & [= H] & Hid). congruence.
  - split; [discriminate|]. intros (id & [= Ho] & _).
    rewrite (proj2 (startsWith_spec _ _)) in Hs; [discriminate|].
    exists id. exact Ho.
Qed.

Example validateExtensionOrigin_production devs :
  validateExtensionOrigin devs
    (Some "chrome-extension://jfeammnjpkecdekppnclgkkffahnhfhe")
  = {| valid := true; extensionId := Some PRODUCTION_EXTENSION_ID |}.
Proof.
  unfold validateExtensionOrigin, isOurExtension, EXTENSION_IDS.
  cbn -[bool_decide]. rewrite bool_decide_eq_true_2 by constructor.
  reflexivity.
Qed.


(** *** The extension id of a URL *)

(** [s.split(sep)] for a separator of one unit: the texts between the
    occurrences of [sep], in order; never an empty array. *)
Fixpoint String_split (sep : ascii) (s : string) : list string :=
  match s with
  | EmptyString => [EmptyString]
  | String c t =>
      if Ascii.eqb c sep then EmptyString :: String_split sep t
      else match String_split sep t with
           | x :: xs => String c x :: xs
           | [] => [String c EmptyString]
           end
  end.

(** [extractExtensionId(url)]; [None] stands for [null].  The array that
    [split] returns always has an element at index 0. *)
Definition extractExtensionId (url : string) : option string :=
  if negb (startsWith "chrome-extension://" url) then None
  else head (String_split "/" (String_remove_first "chrome-extension://" url)).

Example extractExtensionId_path :
  extractExtensionId
    "chrome-extension://jfeammnjpkecdekppnclgkkffahnhfhe/page.html?foo=bar"
  = Some PRODUCTION_EXTENSION_ID
  ∧ extractExtensionId "chrome-extension://jfeammnjpkecdekppnclgkkffahnhfhe"
    = Some PRODUCTION_EXTENSION_ID
  ∧ extractExtensionId "https://example.com" = None.
Proof. repeat split. Qed.

(** The first element of the split: free of the separator, and either
    the whole text or what stands before the first separator. *)
Lemma String_split_head sep s :
  ∃ x xs, String_split sep s = x :: xs ∧ free_of sep x = true ∧
          (s = x ∨ ∃ r, s = x ++ String sep r).
Proof.
  induction s as [|c t (x & xs & IH & Hf & Hs)]; cbn [String_split].
  - exists "", []. auto.
  - destruct (Ascii.eqb c sep) eqn:Hc.
    + apply Ascii.eqb_eq in Hc as ->.
      exists "", (String_split sep t). repeat split. right. now exists t.
    + rewrite IH. exists (String c x), xs. split; [reflexivity|].
      split; [cbn [free_of]; now rewrite Hc|].
      destruct Hs as [-> | [r ->]]; [now left | right; now exists r].
Qed.

Lemma String_split_first sep id rest :
  free_of sep id = true → (rest = "" ∨ ∃ r, rest = String sep r) →
  ∃ xs, String_split sep (id ++ rest) = id :: xs.
Proof.
  intros Hf Hrest. induction id as [|c id IH]; cbn [String.append].
  - destruct Hrest as [-> | [r ->]]; cbn [String_split].
    + eauto.
    + rewrite Ascii.eqb_refl. eauto.
  - cbn [free_of] in Hf. apply andb_true_iff in Hf as [Hc Hf].
    apply negb_true_iff in Hc. cbn [String_split]. rewrite Hc.
    destruct (IH Hf) as [xs ->]. eauto.
Qed.

Lemma free_of_not_app sep x r : free_of sep (x ++ String sep r) = false.
Proof.
  rewrite free_of_app. cbn [free_of]. rewrite Ascii.eqb_refl.
  apply andb_false_r.
Qed.

(** X9.  [extractExtensionId] returns what stands between the scheme and
    the first slash after it, or the end of the URL; it returns null
    exactly for a URL that does not start with the scheme. *)
Theorem extractExtensionId_spec (url id : string) :
  (extractExtensionId url = Some id ↔
   ∃ rest, url = "chrome-extension://" ++ id ++ rest ∧
           free_of "/" id = true ∧ (rest = "" ∨ ∃ r, rest = String "/" r))
  ∧ (extractExtensionId url = None ↔
     startsWith "chrome-extension://" url = false).
Proof.
  unfold extractExtensionId.
  destruct (startsWith "chrome-extension://" url) eqn:Hs; cbn [negb].
  - apply startsWith_spec in Hs as [body ->].
    rewrite String_remove_first_prefix.
    destruct (String_split_head "/" body) as (x & xs & Hx & Hf & Hbody).
    rewrite Hx. cbn [head]. split; [|split; discriminate].
    split.
    + intros [= <-]. destruct Hbody as [Hb | [r Hb]].
      * exists "". rewrite string_app_nil_r. subst body. auto.
      * exists (String "/" r). subst body. eauto.
    + intros (rest & Hurl & Hid & Hrest).
      apply string_app_inv_head in Hurl. subst body.
      destruct (String_split_first "/" id rest Hid Hrest) as [ys Hy].
      congruence.
  - split; [|split; reflexivity].
    split; [discriminate|]. intros (rest & -> & _).
    assert (startsWith "chrome-extension://"
              ("chrome-extension://" ++ id ++ rest) = true)
      by (apply startsWith_spec; eauto).
    congruence.
Qed.

(** X10.  On an origin made of the scheme and a text [r],
    [validateExtensionOrigin] reports [r], everything after the scheme, as
    the extension id, allowlisted or not; this is the id
    [extractExtensionId] gives exactly when [r] holds no slash. *)
Theorem validateExtensionOrigin_extractExtensionId
    (DEV_EXTENSION_IDS : list string) (r : string) :
  extensionId
    (validateExtensionOrigin DEV_EXTENSION_IDS
       (Some ("chrome-extension://" ++ r)))
  = Some r
  ∧ (extensionId
       (validateExtensionOrigin DEV_EXTENSION_IDS
          (Some ("chrome-extension://" ++ r)))
     = extractExtensionId ("chrome-extension://" ++ r)
     ↔ free_of "/" r = true).
Proof.
  assert (Hs : startsWith "chrome-extension://" ("chrome-extension://" ++ r)
               = true) by (apply startsWith_spec; eauto).
  assert (Hid : extensionId
                  (validateExtensionOrigin DEV_EXTENSION_IDS
                     (Some ("chrome-extension://" ++ r)))
                = Some r).
  { unfold validateExtensionOrigin. rewrite Hs.
    rewrite String_remove_first_prefix.
    cbn [String.append String.eqb orb negb].
    now destruct (isOurExtension _ _). }
  split; [exact Hid|]. rewrite Hid.
  unfold extractExtensionId. rewrite Hs, String_remove_first_prefix.
  cbn [negb].
  destruct (String_split_head "/" r) as (x & xs & -> & Hf & Hbody).
  cbn [head]. split.
  - intros [= ->]. exact Hf.
  - intros Hfree. f_equal. destruct Hbody as [-> | [t Hb]]; [reflexivity|].
    rewrite Hb, free_of_not_app in Hfree. discriminate.
Qed.

Example validateExtensionOrigin_with_path :
  extensionId
    (validateExtensionOrigin []
       (Some "chrome-extension://jfeammnjpkecdekppnclgkkffahnhfhe/popup.html"))
  = Some "jfeammnjpkecdekppnclgkkffahnhfhe/popup.html"
  ∧ valid
      (validateExtensionOrigin []
         (Some "chrome-extension://jfeammnjpkecdekppnclgkkffahnhfhe/popup.html"))
    = false
  ∧ extractExtensionId
      "chrome-extension://jfeammnjpkecdekppnclgkkffahnhfhe/popup.html"
    = Some PRODUCTION_EXTENSION_ID.
Proof. repeat split. Qed.

End ExtensionIds.

(** ** The relay

    [cdp-relay.ts] is not among the sources; only its tests and the audit
    report are.  The relay is therefore modelled from the specification
    (sections 3, 4.A-4.F and 7), as a deterministic step function from a
    state and one input (an upgrade request, a frame, an announcement, a
    lost connection, a deadline sweep) to a new state and the actions the
    relay performs.  Keepalive pings, shutdown, the HTTP status route and
    send-queue backpressure are outside the model.

    Two readings are fixed here.  The synthetic target is created when the
    open extension announces its page, be it with its handshake (section
    3, scenario 2 of section 8) or once it is open (section 9), and it is
    removed when the extension goes away; in between an extension may be
    open with no target.  And a command the relay forwards is first
    checked against the absence of an extension (the reply is then
    immediate) and only then, being outbound, against session ownership:
    with no extension there are no bindings, so the two replies of 4.F and
    4.D could not both be given. *)

Module Relay.

Import ExtensionIds.

(** *** JSON values and CDP frames *)

#[local] Set Warnings "-register-all".

(** Modelled from the spec: the frames of [cdp-relay.ts] (section 6 and
    the design note on dynamic payloads).  Payloads are opaque JSON;
    numbers are the integral ones. *)
Inductive json : Type :=
| JNull
| JBool (b : bool)
| JNum (n : Z)
| JStr (s : string)
| JArr (items : list json)
| JObj (props : list (string * json)).

Fixpoint lookup_prop (k : string) (props : list (string * json)) : option json :=
  match props with
  | [] => None
  | (k', v) :: rest => if String.eqb k k' then Some v else lookup_prop k rest
  end.

(** [j.k]; [None] stands for [undefined]. *)
Definition jget (k : string) (j : json) : option json :=
  match j with
  | JObj props => lookup_prop k props
  | _ => None
  end.

Fixpoint set_prop (k : string) (v : json) (props : list (string * json)) :
    list (string * json) :=
  match props with
  | [] => [(k, v)]
  | (k', v') :: rest =>
      if String.eqb k k' then (k, v) :: rest else (k', v') :: set_prop k v rest
  end.

(** [{...j, k: v}] with the position of an existing [k] kept. *)
Definition jset (k : string) (v : json) (j : json) : json :=
  match j with
  | JObj props => JObj (set_prop k v props)
  | _ => j
  end.

Record cdp_error := { code : Z; message : string }.

Definition error_frame (id : Z) (e : cdp_error) : json :=
  JObj [("id", JNum id);
        ("error", JObj [("code", JNum (code e)); ("message", JStr (message e))])].

Definition result_frame (id : Z) (result : json) : json :=
  JObj [("id", JNum id); ("result", result)].

Definition optional_prop (k : string) (v : option json) : list (string * json) :=
  match v with
  | Some j => [(k, j)]
  | None => []
  end.

Definition event_frame (method : string) (sessionId : option string)
    (params : json) : json :=
  JObj ([("method", JStr method)]
          ++ optional_prop "sessionId" (JStr <$> sessionId)
          ++ [("params", params)])%list.

Definition command_frame (id : Z) (method : string) (sessionId : option string)
    (params : option json) : json :=
  JObj ([("id", JNum id); ("method", JStr method)]
          ++ optional_prop "sessionId" (JStr <$> sessionId)
          ++ optional_prop "params" params)%list.

Definition browser_not_connected : cdp_error :=
  {| code := -32000; message := "browser not connected" |}.
Definition browser_disconnected : cdp_error :=
  {| code := -32000; message := "browser disconnected" |}.
Definition relay_timeout : cdp_error :=
  {| code := -32000; message := "relay timeout" |}.
Definition session_not_owned : cdp_error :=
  {| code := -32001; message := "session not owned" |}.
Definition no_such_target : cdp_error :=
  {| code := -32602; message := "no such target" |}.
Definition connection_closed : cdp_error :=
  {| code := -32000; message := "connection closed" |}.

(** *** 4.A: the token comparison *)

Definition token_bytes (s : string) : list Z :=
  map (λ c, Z.of_nat (nat_of_ascii c)) (list_ascii_of_string s).

(** Modelled from the spec: the constant-time byte comparison that
    [cdp-relay.ts] applies to the token of [/cdp] (4.A).  Every pair of bytes is combined into the accumulator;
    there is no exit before the end.  The second component counts the
    pairs examined. *)
Fixpoint ct_scan (a b : list Z) (acc : Z) (steps : nat) : Z * nat :=
  match a, b with
  | x :: a', y :: b' => ct_scan a' b' (Z.lor acc (Z.lxor x y)) (S steps)
  | _, _ => (acc, steps)
  end.

(** Modelled from the spec: the comparison of two tokens by
    [cdp-relay.ts] (4.A) together with its cost: the verdict, and the
    number of byte pairs examined on the way.  Tokens of different lengths
    differ without a scan; tokens of one length are scanned to the end. *)
Definition timingSafeEqual (a b : list Z) : bool * nat :=
  if (List.length a =? List.length b)%nat
  then let r := ct_scan a b 0 0 in ((r.1 =? 0)%Z, r.2)
  else (false, 0%nat).

(** *** 3: the data model *)

Definition conn_id := nat.

Inductive conn_state := Connecting | Open | Closing | Closed.

Record ClientConnection := {
  cc_state : conn_state;
  cc_autoAttach : bool;
  cc_discover : bool
}.

Record ExtensionConnection := {
  ec_state : conn_state;
  ec_extensionId : string;
  ec_origin : string
}.

Inductive connection :=
| ClientConn (c : ClientConnection)
| ExtensionConn (e : ExtensionConnection).

Record PendingCommand := {
  pc_client : conn_id;
  pc_id : Z;
  pc_method : string;
  pc_deadline : Z;
  pc_sessionId : option string
}.

Record SessionBinding := {
  sb_owner : conn_id;
  sb_targetId : option string;
  sb_autoAttach : bool;
  sb_waitingForDebugger : bool
}.

Record SyntheticTarget := {
  targetId : string;
  type : string;
  title : string;
  url : string;
  attached : bool;
  browserContextId : string
}.

Record Counters := {
  dropped_events : nat;
  dropped_responses : nat;
  timed_out_commands : nat;
  extension_replacements : nat
}.

(** Modelled from the spec: the state of [cdp-relay.ts] (section 3).
    The registry [conns] owns every connection record; [extension] names
    the authoritative extension; the other tables refer to connections by
    id. *)
Record state := {
  conns : gmap conn_id connection;
  next_conn : conn_id;
  extension : option conn_id;
  target : option SyntheticTarget;
  next_relay_id : Z;
  pending : gmap Z PendingCommand;
  sessions : gmap string SessionBinding;
  counters : Counters
}.

Definition init : state :=
  {| conns := ∅; next_conn := 0; extension := None; target := None;
     next_relay_id := 1; pending := ∅; sessions := ∅;
     counters := {| dropped_events := 0; dropped_responses := 0;
                    timed_out_commands := 0; extension_replacements := 0 |} |}.

(** What the extension announces of its page: with its handshake, or by
    a frame of its own once it is open. *)
Record Announcement := {
  an_targetId : string;
  an_title : string;
  an_url : string;
  an_browserContextId : string
}.

Inductive ws_data :=
| TextData (s : string)
| BinaryData (bytes : list Z).

Inductive input :=
| UpgradeCdp (token : option string)
| UpgradeExtension (origin : option string) (page : option Announcement)
| ClientData (c : conn_id) (d : ws_data) (now : Z) (random : string)
| ExtensionData (e : conn_id) (d : ws_data)
| ExtensionAnnounce (e : conn_id) (page : Announcement)
| ConnectionLost (c : conn_id)
| Sweep (now : Z).

Inductive action :=
| Reject (status : Z) (category : string)
| Accept (c : conn_id)
| ToClient (c : conn_id) (frame : json)
| ToExtension (e : conn_id) (frame : json)
| CloseConn (c : conn_id) (code : Z) (reason : string)
| LogMsg (entry : json).

Definition set_conns (f : gmap conn_id connection → gmap conn_id connection)
    (st : state) : state :=
  {| conns := f (conns st); next_conn := next_conn st;
     extension := extension st; target := target st;
     next_relay_id := next_relay_id st; pending := pending st;
     sessions := sessions st; counters := counters st |}.

Definition set_pending (f : gmap Z PendingCommand → gmap Z PendingCommand)
    (st : state) : state :=
  {| conns := conns st; next_conn := next_conn st;
     extension := extension st; target := target st;
     next_relay_id := next_relay_id st; pending := f (pending st);
     sessions := sessions st; counters := counters st |}.

Definition set_sessions
    (f : gmap string SessionBinding → gmap string SessionBinding)
    (st : state) : state :=
  {| conns := conns st; next_conn := next_conn st;
     extension := extension st; target := target st;
     next_relay_id := next_relay_id st; pending := pending st;
     sessions := f (sessions st); counters := counters st |}.

Definition set_counters (f : Counters → Counters) (st : state) : state :=
  {| conns := conns st; next_conn := next_conn st;
     extension := extension st; target := target st;
     next_relay_id := next_relay_id st; pending := pending st;
     sessions := sessions st; counters := f (counters st) |}.

Definition count_dropped_event (c : Counters) : Counters :=
  {| dropped_events := S (dropped_events c);
     dropped_responses := dropped_responses c;
     timed_out_commands := timed_out_commands c;
     extension_replacements := extension_replacements c |}.

Definition count_dropped_response (c : Counters) : Counters :=
  {| dropped_events := dropped_events c;
     dropped_responses := S (dropped_responses c);
     timed_out_commands := timed_out_commands c;
     extension_replacements := extension_replacements c |}.

Definition count_timed_out (n : nat) (c : Counters) : Counters :=
  {| dropped_events := dropped_events c;
     dropped_responses := dropped_responses c;
     timed_out_commands := n + timed_out_commands c;
     extension_replacements := extension_replacements c |}.

Definition count_replacement (c : Counters) : Counters :=
  {| dropped_events := dropped_events c;
     dropped_responses := dropped_responses c;
     timed_out_commands := timed_out_commands c;
     extension_replacements := S (extension_replacements c) |}.

Definition is_open (s : conn_state) : bool :=
  match s with
  | Open => true
  | _ => false
  end.

Definition open_client_record (conn : connection) : bool :=
  match conn with
  | ClientConn cc => is_open (cc_state cc)
  | ExtensionConn _ => false
  end.

Definition open_extension_record (conn : connection) : bool :=
  match conn with
  | ExtensionConn ec => is_open (ec_state ec)
  | ClientConn _ => false
  end.

Definition is_open_client (st : state) (c : conn_id) : bool :=
  from_option open_client_record false (conns st !! c).

Definition is_open_extension (st : state) (e : conn_id) : bool :=
  from_option open_extension_record false (conns st !! e).

Definition open_clients (st : state) : list conn_id :=
  filter (λ c, is_open_client st c = true) (seq 0 (next_conn st)).

Definition target_info (t : SyntheticTarget) : json :=
  JObj [("targetId", JStr (targetId t)); ("type", JStr (type t));
        ("title", JStr (title t)); ("url", JStr (url t));
        ("attached", JBool (attached t));
        ("browserContextId", JStr (browserContextId t))].

(** *** Configuration and environment *)

Record config := {
  token : option string;
  commandTimeoutMs : Z;
  longCommandTimeoutMs : Z;
  longMethods : list string
}.

Section Machine.

Variable cfg : config.

(** The development ids of the allowlist (see [ExtensionIds]). *)
Variable DEV_EXTENSION_IDS : list string.

(** [JSON.parse], [None] when it throws. *)
Variable JSON_parse : string → option json.

(** The constant answer to [Browser.getVersion]. *)
Variable version_info : json.

(** The error sent back for a malformed command whose [id] could be read;
    the specification fixes neither its code nor its message. *)
Variable invalid_request : cdp_error.

(** *** 4.A: Auth & Origin Gate *)

(** Modelled from the spec: the token check of [cdp-relay.ts] on [/cdp]
    (4.A), as it runs: the decision, and the number of byte pairs of the
    two tokens that were examined to reach it.
    [None] accepts the client; [Some category] rejects it. *)
Definition gate_cdp_run (supplied : option string) : option string * nat :=
  match token cfg with
  | None => (None, 0%nat)
  | Some expected =>
      match supplied with
      | None => (Some "no-token", 0%nat)
      | Some t =>
          let r := timingSafeEqual (token_bytes t) (token_bytes expected) in
          (if r.1 then None else Some "bad-token", r.2)
      end
  end.

(** The decision alone. *)
Definition gate_cdp (supplied : option string) : option string :=
  (gate_cdp_run supplied).1.

(** Modelled from the spec: the origin check of [cdp-relay.ts] on
    [/extension] (4.A), around [validateExtensionOrigin]. *)
Definition gate_extension (origin : option string) : string + string :=
  let check := validateExtensionOrigin DEV_EXTENSION_IDS origin in
  match valid check, extensionId check with
  | true, Some id => inr id
  | _, Some _ => inl "unknown-ext"
  | _, None => inl "bad-origin"
  end.

(** *** 4.B: the registry *)

(** Modelled from the spec: acceptance of a client by [cdp-relay.ts]
    (4.B); the client gets the next id. *)
Definition accept_client (st : state) : state * list action :=
  let c := next_conn st in
  let cc := {| cc_state := Open; cc_autoAttach := false;
               cc_discover := false |} in
  ({| conns := <[c := ClientConn cc]> (conns st); next_conn := S c;
      extension := extension st; target := target st;
      next_relay_id := next_relay_id st; pending := pending st;
      sessions := sessions st; counters := counters st |},
   [Accept c]).

Definition set_conn_state (s : conn_state) (c : connection) : connection :=
  match c with
  | ClientConn cc =>
      ClientConn {| cc_state := s; cc_autoAttach := cc_autoAttach cc;
                    cc_discover := cc_discover cc |}
  | ExtensionConn ec =>
      ExtensionConn {| ec_state := s; ec_extensionId := ec_extensionId ec;
                       ec_origin := ec_origin ec |}
  end.

(** Modelled from the spec: the cleanup of [cdp-relay.ts] when the open
    extension goes away (4.B): every pending command is answered with
    "browser disconnected" under its original id, the session bindings are
    cleared and the synthetic target is removed. *)
Definition extension_loss (st : state) : state * list action :=
  let errors :=
    map (λ '(_, pc), ToClient (pc_client pc)
                       (error_frame (pc_id pc) browser_disconnected))
        (map_to_list (pending st)) in
  ({| conns := conns st; next_conn := next_conn st;
      extension := None; target := None;
      next_relay_id := next_relay_id st; pending := ∅;
      sessions := ∅; counters := counters st |},
   errors).

(** Modelled from the spec: [cdp-relay.ts] closes the open extension [e]
    itself (4.B replacement, 7 protocol error). *)
Definition close_extension (st : state) (e : conn_id) (code : Z)
    (reason : string) : state * list action :=
  let '(st1, errors) := extension_loss st in
  (set_conns (alter (set_conn_state Closing) e) st1,
   CloseConn e code reason :: errors).

Definition synthetic_target (page : Announcement) : SyntheticTarget :=
  {| targetId := an_targetId page; type := "page"; title := an_title page;
     url := an_url page; attached := false;
     browserContextId := an_browserContextId page |}.

(** Modelled from the spec: acceptance of an extension by [cdp-relay.ts]
    (4.B): the newest extension wins.  The synthetic target of the old
    extension goes with it; the new one has a target from the start only
    if it announced its page with the handshake. *)
Definition accept_extension (st : state) (id origin : string)
    (page : option Announcement) : state * list action :=
  let '(st1, replaced) :=
    match extension st with
    | Some old =>
        let '(st', acts) := close_extension st old 1000 "replaced" in
        (set_counters count_replacement st', acts)
    | None => (st, [])
    end in
  let e := next_conn st1 in
  let ec := {| ec_state := Open; ec_extensionId := id;
               ec_origin := origin |} in
  ({| conns := <[e := ExtensionConn ec]> (conns st1); next_conn := S e;
      extension := Some e; target := synthetic_target <$> page;
      next_relay_id := next_relay_id st1; pending := pending st1;
      sessions := sessions st1; counters := counters st1 |},
   (replaced ++ [Accept e])%list).

(** Modelled from the spec: the open extension of [cdp-relay.ts] announces
    its page once it is open (3, 9); the synthetic target is created from
    the first announcement of a connection.  The specification does not
    give the wire form of the announcement, so it arrives decoded. *)
Definition announce (st : state) (e : conn_id) (page : Announcement) :
    state * list action :=
  if bool_decide (extension st = Some e) then
    match target st with
    | None =>
        ({| conns := conns st; next_conn := next_conn st;
            extension := extension st;
            target := Some (synthetic_target page);
            next_relay_id := next_relay_id st; pending := pending st;
            sessions := sessions st; counters := counters st |}, [])
    | Some _ => (st, [])
    end
  else (st, []).

(** Modelled from the spec: what [cdp-relay.ts] does when a connection
    closes (4.B).  A client's pending commands are resolved with
    "connection closed" and dropped with its bindings; the loss of the
    open extension is [extension_loss]. *)
Definition connection_lost (st : state) (c : conn_id) : state * list action :=
  match conns st !! c with
  | Some (ClientConn _) =>
      let owned :=
        filter (λ kv, pc_client kv.2 = c) (map_to_list (pending st)) in
      let st1 := set_conns (alter (set_conn_state Closed) c) st in
      let st2 := set_pending (filter (λ kv, pc_client kv.2 ≠ c)) st1 in
      (set_sessions (filter (λ kv, sb_owner kv.2 ≠ c)) st2,
       map (λ kv, ToClient c (error_frame (pc_id kv.2) connection_closed))
           owned)
  | Some (ExtensionConn _) =>
      let st1 := set_conns (alter (set_conn_state Closed) c) st in
      if bool_decide (extension st = Some c) then extension_loss st1
      else (st1, [])
  | None => (st, [])
  end.

(** *** Client frames: parsing (section 7, kind 2) *)

Inductive client_message :=
| Command (id : Z) (method : string) (sessionId : option string)
          (params : option json)
| Malformed (id : option Z).

(** An optional property of the right type. *)
Definition optional_string (v : option json) : option (option string) :=
  match v with
  | None => Some None
  | Some (JStr s) => Some (Some s)
  | Some _ => None
  end.

Definition optional_object (v : option json) : option (option json) :=
  match v with
  | None => Some None
  | Some (JObj props) => Some (Some (JObj props))
  | Some _ => None
  end.

(** Modelled from the spec: how [cdp-relay.ts] reads a client frame
    (sections 6 and 7): a command has a numeric [id], a string [method],
    and, when present, a string [sessionId] and an object [params]. *)
Definition parse_command (j : json) : client_message :=
  match jget "id" j with
  | Some (JNum id) =>
      match jget "method" j, optional_string (jget "sessionId" j),
            optional_object (jget "params" j) with
      | Some (JStr method), Some sessionId, Some params =>
          Command id method sessionId params
      | _, _, _ => Malformed (Some id)
      end
  | _ => Malformed None
  end.

Definition decode_client (d : ws_data) : client_message :=
  match d with
  | BinaryData _ => Malformed None
  | TextData s =>
      match JSON_parse s with
      | Some j => parse_command j
      | None => Malformed None
      end
  end.

(** *** 4.D: session ownership *)

(** Modelled from the spec: the session router of [cdp-relay.ts] (4.D). *)
Definition owner (st : state) (sessionId : string) : option conn_id :=
  sb_owner <$> sessions st !! sessionId.

Definition owns (st : state) (c : conn_id) (sessionId : option string) : bool :=
  match sessionId with
  | None => true
  | Some s => bool_decide (owner st s = Some c)
  end.

(** *** 4.E: the synthetic responder *)

(** Modelled from the spec: the methods [cdp-relay.ts] answers itself
    (the table of 4.E). *)
Definition synthetic_methods : list string :=
  ["Browser.getVersion"; "Target.setDiscoverTargets"; "Target.getTargets";
   "Target.setAutoAttach"; "Target.attachToTarget";
   "Target.detachFromTarget"].

Definition is_synthetic (method : string) : bool :=
  bool_decide (method ∈ synthetic_methods).

Definition flag (k : string) (params : option json) : bool :=
  match params ≫= jget k with
  | Some (JBool true) => true
  | _ => false
  end.

Definition ok_frame (id : Z) : json := result_frame id (JObj []).

Definition set_client_flags (c : conn_id) (autoAttach discover : option bool)
    (st : state) : state :=
  set_conns
    (alter (λ conn,
       match conn with
       | ClientConn cc =>
           ClientConn {| cc_state := cc_state cc;
                         cc_autoAttach := default (cc_autoAttach cc) autoAttach;
                         cc_discover := default (cc_discover cc) discover |}
       | other => other
       end) c) st.

Definition client_discover (st : state) (c : conn_id) : bool :=
  match conns st !! c with
  | Some (ClientConn cc) => cc_discover cc
  | _ => false
  end.

Definition attached_event (sessionId : string) (t : SyntheticTarget)
    (waiting : bool) : json :=
  event_frame "Target.attachedToTarget" None
    (JObj [("sessionId", JStr sessionId); ("targetInfo", target_info t);
           ("waitingForDebugger", JBool waiting)]).

Definition bind_session (c : conn_id) (sessionId : string)
    (t : SyntheticTarget) (auto waiting : bool) (st : state) : state :=
  set_sessions
    (<[sessionId := {| sb_owner := c; sb_targetId := Some (targetId t);
                       sb_autoAttach := auto;
                       sb_waitingForDebugger := waiting |}]>) st.

(** Modelled from the spec: the synthetic responder of [cdp-relay.ts],
    row by row of the table of 4.E; [random] is the fresh session id.
    Forwarding of [Runtime.runIfWaitingForDebugger] is left to [forward]. *)
Definition synthetic (st : state) (c : conn_id) (id : Z) (method : string)
    (params : option json) (random : string) : state * list action :=
  if String.eqb method "Browser.getVersion" then
    (st, [ToClient c (result_frame id version_info)])
  else if String.eqb method "Target.setDiscoverTargets" then
    let discover := flag "discover" params in
    let created :=
      match target st with
      | Some t =>
          if discover && negb (client_discover st c)
          then [ToClient c (event_frame "Target.targetCreated" None
                              (JObj [("targetInfo", target_info t)]))]
          else []
      | None => []
      end in
    (set_client_flags c None (Some discover) st,
     (created ++ [ToClient c (ok_frame id)])%list)
  else if String.eqb method "Target.getTargets" then
    let infos :=
      match target st with
      | Some t => [target_info t]
      | None => []
      end in
    (st, [ToClient c (result_frame id (JObj [("targetInfos", JArr infos)]))])
  else if String.eqb method "Target.setAutoAttach" then
    let auto := flag "autoAttach" params in
    let waiting := flag "waitForDebugger" params in
    let st1 := set_client_flags c (Some auto) None st in
    match target st with
    | Some t =>
        if auto
        then (bind_session c random t true waiting st1,
              [ToClient c (attached_event random t waiting);
               ToClient c (ok_frame id)])
        else (st1, [ToClient c (ok_frame id)])
    | None => (st1, [ToClient c (ok_frame id)])
    end
  else if String.eqb method "Target.attachToTarget" then
    match target st, params ≫= jget "targetId" with
    | Some t, Some (JStr tid) =>
        if String.eqb tid (targetId t)
        then (bind_session c random t false false st,
              [ToClient c (result_frame id
                             (JObj [("sessionId", JStr random)]));
               ToClient c (attached_event random t false)])
        else (st, [ToClient c (error_frame id no_such_target)])
    | _, _ => (st, [ToClient c (error_frame id no_such_target)])
    end
  else
    (* Target.detachFromTarget *)
    match params ≫= jget "sessionId" with
    | Some (JStr s) =>
        if owns st c (Some s)
        then (set_sessions (delete s) st,
              [ToClient c (ok_frame id);
               ToClient c (event_frame "Target.detachedFromTarget" None
                             (JObj [("sessionId", JStr s)]))])
        else (st, [ToClient c (error_frame id session_not_owned)])
    | _ => (st, [ToClient c (error_frame id session_not_owned)])
    end.

(** *** 4.C and 4.F: correlation and forwarding *)

Definition deadline (now : Z) (method : string) : Z :=
  (now + if bool_decide (method ∈ longMethods cfg)
         then longCommandTimeoutMs cfg
         else commandTimeoutMs cfg)%Z.

(** Modelled from the spec: the forwarding engine of [cdp-relay.ts]
    (4.C, 4.F).  With no open extension there is nothing to send to and
    the reply is immediate; a command that is about to go out must bear no
    session of another client. *)
Definition forward (st : state) (c : conn_id) (id : Z) (method : string)
    (sessionId : option string) (params : option json) (now : Z) :
    state * list action :=
  match extension st with
  | None => (st, [ToClient c (error_frame id browser_not_connected)])
  | Some e =>
      if owns st c sessionId then
        let rid := next_relay_id st in
        let pc := {| pc_client := c; pc_id := id; pc_method := method;
                     pc_deadline := deadline now method;
                     pc_sessionId := sessionId |} in
        ({| conns := conns st; next_conn := next_conn st;
            extension := extension st; target := target st;
            next_relay_id := (rid + 1)%Z;
            pending := <[rid := pc]> (pending st);
            sessions := sessions st; counters := counters st |},
         [ToExtension e (command_frame rid method sessionId params)])
      else (st, [ToClient c (error_frame id session_not_owned)])
  end.

(** Modelled from the spec: a frame from a client of [cdp-relay.ts]
    (4.E, 4.F, 7); frames on a connection that is not an open client are
    ignored. *)
Definition client_data (st : state) (c : conn_id) (d : ws_data) (now : Z)
    (random : string) : state * list action :=
  if is_open_client st c then
    match decode_client d with
    | Command id method sessionId params =>
        if is_synthetic method
        then synthetic st c id method params random
        else forward st c id method sessionId params now
    | Malformed (Some id) => (st, [ToClient c (error_frame id invalid_request)])
    | Malformed None => (st, [])
    end
  else (st, []).

(** *** Extension frames *)

Inductive extension_message :=
| Response (id : Z) (frame : json)
| ForwardCDPEvent (method : string) (sessionId : option string) (params : json)
| ExtLog (entry : json)
| Pong
| Unknown
| Invalid.

(** Modelled from the spec: how [cdp-relay.ts] reads an extension frame
    (section 6), in the order of the message handler of the unit test: a
    frame with an [id] is a response, then the method decides. *)
Definition parse_extension (j : json) : extension_message :=
  match jget "id" j with
  | Some (JNum id) => Response id j
  | Some _ => Invalid
  | None =>
      match jget "method" j with
      | Some (JStr method) =>
          if String.eqb method "forwardCDPEvent" then
            match jget "params" j with
            | Some p =>
                match jget "method" p, optional_string (jget "sessionId" p) with
                | Some (JStr m), Some sessionId =>
                    ForwardCDPEvent m sessionId
                      (default (JObj []) (jget "params" p))
                | _, _ => Invalid
                end
            | None => Invalid
            end
          else if String.eqb method "log" then
            ExtLog (default JNull (jget "params" j))
          else if String.eqb method "pong" then Pong
          else Unknown
      | _ => Invalid
      end
  end.

Definition decode_extension (d : ws_data) : extension_message :=
  match d with
  | BinaryData _ => Invalid
  | TextData s =>
      match JSON_parse s with
      | Some j => parse_extension j
      | None => Invalid
      end
  end.

(** Modelled from the spec: event routing of [cdp-relay.ts] (4.D): an
    event with a session goes to the owner of the session and to nobody
    else; one without goes to every open client. *)
Definition route_event (st : state) (method : string)
    (sessionId : option string) (params : json) : state * list action :=
  let frame := event_frame method sessionId params in
  match sessionId with
  | Some s =>
      match owner st s with
      | Some c => (st, [ToClient c frame])
      | None => (set_counters count_dropped_event st, [])
      end
  | None => (st, map (λ c, ToClient c frame) (open_clients st))
  end.

(** Modelled from the spec: a frame from the extension of [cdp-relay.ts]
    (4.C, 4.F, 7); only the authoritative extension is listened to. *)
Definition extension_data (st : state) (e : conn_id) (d : ws_data) :
    state * list action :=
  if bool_decide (extension st = Some e) then
    match decode_extension d with
    | Response rid frame =>
        match pending st !! rid with
        | Some pc =>
            (set_pending (delete rid) st,
             [ToClient (pc_client pc) (jset "id" (JNum (pc_id pc)) frame)])
        | None => (set_counters count_dropped_response st, [])
        end
    | ForwardCDPEvent method sessionId params =>
        route_event st method sessionId params
    | ExtLog entry => (st, [LogMsg entry])
    | Pong => (st, [])
    | Unknown => (st, [])
    | Invalid => close_extension st e 1002 "protocol error"
    end
  else (st, []).

(** Modelled from the spec: the deadline sweep of [cdp-relay.ts] (4.C),
    which answers every expired command with "relay timeout". *)
Definition sweep (st : state) (now : Z) : state * list action :=
  let expired :=
    filter (λ kv, (pc_deadline kv.2 <= now)%Z) (map_to_list (pending st)) in
  (set_counters (count_timed_out (List.length expired))
     (set_pending (filter (λ kv, ¬ (pc_deadline kv.2 <= now)%Z)) st),
   map (λ kv, ToClient (pc_client kv.2)
                (error_frame (pc_id kv.2) relay_timeout)) expired).

(** *** The relay *)

(** Modelled from the spec: [cdp-relay.ts] as a whole, one input at a
    time. *)
Definition step (st : state) (i : input) : state * list action :=
  match i with
  | UpgradeCdp supplied =>
      match gate_cdp supplied with
      | None => accept_client st
      | Some category => (st, [Reject 401 category])
      end
  | UpgradeExtension origin page =>
      match gate_extension origin with
      | inr id => accept_extension st id (default "" origin) page
      | inl category => (st, [Reject 403 category])
      end
  | ClientData c d now random => client_data st c d now random
  | ExtensionData e d => extension_data st e d
  | ExtensionAnnounce e page => announce st e page
  | ConnectionLost c => connection_lost st c
  | Sweep now => sweep st now
  end.

(** The state after a sequence of inputs, and everything done on the way. *)
Fixpoint run (st : state) (inputs : list input) : state * list action :=
  match inputs with
  | [] => (st, [])
  | i :: rest =>
      let '(st1, acts1) := step st i in
      let '(st2, acts2) := run st1 rest in
      (st2, (acts1 ++ acts2)%list)
  end.

Definition reached (inputs : list input) : state := (run init inputs).1.

(** *** Properties of states and frames *)

(** What holds of the registry at every instant: ids are handed out in
    order, the open extension records are exactly the authoritative one,
    and a synthetic target exists only while an extension is open, and is
    a page. *)
Definition inv (st : state) : Prop :=
  (∀ c, is_Some (conns st !! c) → (c < next_conn st)%nat) ∧
  (∀ e, is_open_extension st e = true ↔ extension st = Some e) ∧
  (∀ t, target st = Some t → is_Some (extension st) ∧ type t = "page").

(** Two states with the same extension records, as far as being open
    goes. *)
Definition extensions_kept (st st' : state) : Prop :=
  next_conn st' = next_conn st ∧
  extension st' = extension st ∧
  target st' = target st ∧
  (∀ c, is_open_extension st' c = is_open_extension st c) ∧
  (∀ c, is_Some (conns st' !! c) ↔ is_Some (conns st !! c)).

(** The same, and the same open clients. *)
Definition registry_kept (st st' : state) : Prop :=
  extensions_kept st st' ∧
  (∀ c, is_open_client st' c = is_open_client st c).

(** The kinds of protocol error on the extension connection. *)
Inductive extension_protocol_error : ws_data → Prop :=
| ext_binary bytes : extension_protocol_error (BinaryData bytes)
| ext_not_json s :
    JSON_parse s = None → extension_protocol_error (TextData s)
| ext_no_id_no_method s j :
    JSON_parse s = Some j → jget "id" j = None → jget "method" j = None →
    extension_protocol_error (TextData s)
| ext_id_type s j v :
    JSON_parse s = Some j → jget "id" j = Some v → (∀ n, v ≠ JNum n) →
    extension_protocol_error (TextData s)
| ext_method_type s j v :
    JSON_parse s = Some j → jget "id" j = None → jget "method" j = Some v →
    (∀ m, v ≠ JStr m) →
    extension_protocol_error (TextData s)
| ext_event_type s j :
    JSON_parse s = Some j → jget "id" j = None →
    jget "method" j = Some (JStr "forwardCDPEvent") →
    (∀ p m, jget "params" j = Some p → jget "method" p = Some (JStr m) →
            optional_string (jget "sessionId" p) = None) →
    extension_protocol_error (TextData s).

(** The kinds of protocol error on a client connection, with the id of
    the frame where one can be read. *)
Inductive client_protocol_error : ws_data → option Z → Prop :=
| cli_binary bytes : client_protocol_error (BinaryData bytes) None
| cli_not_json s :
    JSON_parse s = None → client_protocol_error (TextData s) None
| cli_no_id s j :
    JSON_parse s = Some j → jget "id" j = None →
    client_protocol_error (TextData s) None
| cli_id_type s j v :
    JSON_parse s = Some j → jget "id" j = Some v → (∀ n, v ≠ JNum n) →
    client_protocol_error (TextData s) None
| cli_no_method s j id :
    JSON_parse s = Some j → jget "id" j = Some (JNum id) →
    jget "method" j = None →
    client_protocol_error (TextData s) (Some id)
| cli_method_type s j id v :
    JSON_parse s = Some j → jget "id" j = Some (JNum id) →
    jget "method" j = Some v → (∀ m, v ≠ JStr m) →
    client_protocol_error (TextData s) (Some id)
| cli_session_type s j id v :
    JSON_parse s = Some j → jget "id" j = Some (JNum id) →
    jget "sessionId" j = Some v → (∀ x, v ≠ JStr x) →
    client_protocol_error (TextData s) (Some id)
| cli_params_type s j id v :
    JSON_parse s = Some j → jget "id" j = Some (JNum id) →
    jget "params" j = Some v → (∀ props, v ≠ JObj props) →
    client_protocol_error (TextData s) (Some id).

(** *** Facts: Auth & Origin Gate *)

Lemma ct_scan_steps (a b : list Z) acc n :
  List.length a = List.length b →
  (ct_scan a b acc n).2 = (n + List.length a)%nat.
Proof.
  revert b acc n; induction a as [|x a IH]; intros [|y b] acc n Hl;
    simpl in *; try lia.
  rewrite IH by lia. lia.
Qed.

Lemma ct_scan_zero (a b : list Z) acc n :
  List.length a = List.length b →
  (ct_scan a b acc n).1 = 0%Z ↔ acc = 0%Z ∧ a = b.
Proof.
  revert b acc n; induction a as [|x a IH]; intros [|y b] acc n Hl;
    simpl in *; try lia.
  - tauto.
  - rewrite IH by lia. rewrite Z.lor_eq_0_iff, Z.lxor_eq_0_iff.
    split; [intros [[-> ->] ->] | intros [-> [= -> ->]]]; auto.
Qed.

Lemma timingSafeEqual_spec (a b : list Z) :
  (timingSafeEqual a b).1 = true ↔ a = b.
Proof.
  unfold timingSafeEqual.
  destruct (List.length a =? List.length b)%nat eqn:Hl; cbn [fst].
  - apply Nat.eqb_eq in Hl. rewrite Z.eqb_eq.
    rewrite (ct_scan_zero a b 0 0 Hl). tauto.
  - apply Nat.eqb_neq in Hl. split; [discriminate|].
    intros ->. now destruct Hl.
Qed.

(** The cost of a comparison is a function of the two lengths. *)
Lemma timingSafeEqual_cost (a b : list Z) :
  (timingSafeEqual a b).2
  = if (List.length a =? List.length b)%nat then List.length b else 0%nat.
Proof.
  unfold timingSafeEqual.
  destruct (List.length a =? List.length b)%nat eqn:Hl; [|reflexivity].
  apply Nat.eqb_eq in Hl. cbn [snd]. rewrite ct_scan_steps by assumption.
  now rewrite Hl.
Qed.

Lemma token_bytes_length (s : string) :
  List.length (token_bytes s) = String.length s.
Proof.
  unfold token_bytes. rewrite length_map.
  induction s as [|c s IH]; simpl; congruence.
Qed.

Lemma token_bytes_inj (s t : string) : token_bytes s = token_bytes t → s = t.
Proof.
  unfold token_bytes. revert t; induction s as [|c s IH]; intros [|d t];
    simpl; try discriminate; [reflexivity|].
  intros [= Hc Hs]. apply Nat2Z.inj in Hc.
  rewrite <- (ascii_nat_embedding c), <- (ascii_nat_embedding d), Hc.
  f_equal. now apply IH.
Qed.

Lemma gate_cdp_configured (expected : string) (supplied : option string) :
  token cfg = Some expected → supplied ≠ Some expected →
  gate_cdp supplied
  = Some (match supplied with Some _ => "bad-token" | None => "no-token" end).
Proof.
  intros Hcfg Hne. unfold gate_cdp, gate_cdp_run. rewrite Hcfg.
  destruct supplied as [t|]; [|reflexivity]. cbn [fst].
  destruct (timingSafeEqual _ _).1 eqn:Heq; [|reflexivity].
  apply timingSafeEqual_spec, token_bytes_inj in Heq. congruence.
Qed.

Lemma gate_cdp_match (expected : string) :
  token cfg = Some expected → gate_cdp (Some expected) = None.
Proof.
  intros Hcfg. unfold gate_cdp, gate_cdp_run. rewrite Hcfg. cbn [fst].
  now rewrite (proj2 (timingSafeEqual_spec _ _) eq_refl).
Qed.

Lemma gate_cdp_run_cost (expected t : string) :
  token cfg = Some expected →
  (gate_cdp_run (Some t)).2
  = if (String.length t =? String.length expected)%nat
    then String.length expected else 0%nat.
Proof.
  intros Hcfg. unfold gate_cdp_run. rewrite Hcfg. cbn [snd].
  now rewrite timingSafeEqual_cost, !token_bytes_length.
Qed.

Lemma is_open_client_accepted (st : state) :
  is_open_client (accept_client st).1 (next_conn st) = true.
Proof.
  unfold is_open_client, accept_client. simpl. now rewrite lookup_insert_eq.
Qed.

(** C1.  What the relay does with an upgrade to [/cdp] is what the token
    check decides.  With a non-empty token configured, an upgrade whose
    token is missing or different is answered with 401 and nothing else:
    no handshake, no frame, no change of state; the matching token is
    accepted.  The check is constant-time: the number of byte pairs it
    examines is fixed by the lengths of the two tokens, whatever bytes
    they hold, so two supplied tokens of one length cost the same, and a
    token as long as the configured one is examined to its last byte.
    With no token configured every client is accepted. *)
Theorem cdp_upgrade_auth (st : state) (supplied : option string) :
  step st (UpgradeCdp supplied)
  = match (gate_cdp_run supplied).1 with
    | None => accept_client st
    | Some category => (st, [Reject 401 category])
    end
  ∧ (∀ expected, token cfg = Some expected → expected ≠ "" →
     (supplied ≠ Some expected →
        ∃ category, step st (UpgradeCdp supplied) = (st, [Reject 401 category]))
     ∧ step st (UpgradeCdp (Some expected)) = accept_client st
     ∧ (∀ t, (gate_cdp_run (Some t)).2
             = if (String.length t =? String.length expected)%nat
               then String.length expected else 0%nat)
     ∧ (∀ t t', String.length t = String.length t' →
          (gate_cdp_run (Some t)).2 = (gate_cdp_run (Some t')).2))
  ∧ (token cfg = None →
       step st (UpgradeCdp supplied) = accept_client st ∧
       (accept_client st).2 = [Accept (next_conn st)] ∧
       is_open_client (accept_client st).1 (next_conn st) = true).
Proof.
  split; [reflexivity|]. split.
  - intros expected Hcfg _. split; [|split; [|split]].
    + intros Hne. eexists. cbn [step].
      now rewrite (gate_cdp_configured expected supplied).
    + cbn [step]. now rewrite gate_cdp_match.
    + intros t. now apply gate_cdp_run_cost.
    + intros t t' Hlen.
      now rewrite !(gate_cdp_run_cost expected), Hlen.
  - intros Hcfg. split; [|split].
    + cbn [step]. unfold gate_cdp, gate_cdp_run. now rewrite Hcfg.
    + reflexivity.
    + apply is_open_client_accepted.
Qed.

Lemma gate_extension_accept (id : string) :
  id ∈ EXTENSION_IDS DEV_EXTENSION_IDS →
  gate_extension (Some ("chrome-extension://" ++ id)) = inr id.
Proof.
  intros Hid. unfold gate_extension, validateExtensionOrigin.
  replace (String.eqb ("chrome-extension://" ++ id) "") with false
    by reflexivity.
  replace (startsWith "chrome-extension://" ("chrome-extension://" ++ id))
    with true by (symmetry; apply startsWith_spec; eauto).
  cbn [orb negb]. rewrite String_remove_first_prefix.
  unfold isOurExtension. now rewrite bool_decide_eq_true_2.
Qed.

Lemma gate_extension_reject (origin : option string) :
  valid (validateExtensionOrigin DEV_EXTENSION_IDS origin) = false →
  ∃ category, gate_extension origin = inl category.
Proof.
  unfold gate_extension. intros ->.
  destruct (extensionId _); eauto.
Qed.

Lemma accept_extension_next_conn st id origin page :
  (accept_extension st id origin page).2
  = (match extension st with
     | Some old => (close_extension st old 1000 "replaced").2
     | None => []
     end ++ [Accept (next_conn st)])%list
  ∧ extension (accept_extension st id origin page).1 = Some (next_conn st)
  ∧ is_open_extension (accept_extension st id origin page).1 (next_conn st)
    = true.
Proof.
  unfold accept_extension, close_extension, extension_loss, is_open_extension.
  destruct (extension st) as [old|]; simpl; rewrite lookup_insert_eq; auto.
Qed.

(** C3.  An upgrade to [/extension] with no Origin, with an Origin that
    does not begin with [chrome-extension://], or with one whose remainder
    is not on the allowlist is answered with 403 and nothing else; an
    Origin made of [chrome-extension://] and an allowlisted id is accepted
    and becomes the open extension. *)
Theorem extension_upgrade_origin (st : state) (origin : option string)
    (page : option Announcement) :
  (origin = None
   ∨ (∃ o, origin = Some o ∧ startsWith "chrome-extension://" o = false)
   ∨ (∃ id, origin = Some ("chrome-extension://" ++ id)
            ∧ id ∉ EXTENSION_IDS DEV_EXTENSION_IDS) →
   ∃ category,
     step st (UpgradeExtension origin page) = (st, [Reject 403 category]))
  ∧ (∀ id, origin = Some ("chrome-extension://" ++ id) →
       id ∈ EXTENSION_IDS DEV_EXTENSION_IDS →
       let r := step st (UpgradeExtension origin page) in
       Accept (next_conn st) ∈ r.2 ∧
       (∀ status category, Reject status category ∉ r.2) ∧
       extension r.1 = Some (next_conn st) ∧
       is_open_extension r.1 (next_conn st) = true).
Proof.
  split.
  - intros Hbad.
    destruct (gate_extension_reject origin) as [category Hc].
    + destruct (valid _) eqn:Hv; [|reflexivity].
      apply validateExtensionOrigin_valid in Hv as (id & -> & Hid).
      destruct Hbad as [? | [(o & [= <-] & Ho) | (id' & [= Hid'] & Hno)]].
      * discriminate.
      * rewrite (proj2 (startsWith_spec _ _)) in Ho; [discriminate | eauto].
      * congruence.
    + exists category. cbn [step]. now rewrite Hc.
  - intros id -> Hid r. subst r. cbn [step].
    rewrite gate_extension_accept by assumption.
    destruct (accept_extension_next_conn st id
                (default "" (Some ("chrome-extension://" ++ id))) page)
      as (Hacts & Hext & Hopen).
    repeat split; try assumption.
    + rewrite Hacts. apply elem_of_app. right. constructor.
    + intros status category. rewrite Hacts, elem_of_app.
      intros [Hin | Hin].
      * destruct (extension st); [|inversion Hin].
        unfold close_extension, extension_loss in Hin. simpl in Hin.
        apply elem_of_cons in Hin as [? | Hin]; [discriminate|].
        apply list_elem_of_fmap in Hin as ([k pc] & ? & _). discriminate.
      * apply list_elem_of_singleton in Hin. discriminate.
Qed.

(** *** Facts: the registry *)

Lemma extensions_kept_trans st1 st2 st3 :
  extensions_kept st1 st2 → extensions_kept st2 st3 → extensions_kept st1 st3.
Proof.
  intros (? & ? & ? & He & Hd) (? & ? & ? & He' & Hd').
  split; [congruence|]. split; [congruence|]. split; [congruence|]. split.
  - intros c. now rewrite He', He.
  - intros c. now rewrite Hd', Hd.
Qed.

Lemma extensions_kept_same_conns st st' :
  conns st' = conns st → next_conn st' = next_conn st →
  extension st' = extension st → target st' = target st →
  extensions_kept st st'.
Proof.
  intros Hc ? ? ?. unfold extensions_kept, is_open_extension.
  rewrite Hc. tauto.
Qed.

Lemma extensions_kept_alter st c (f : connection → connection) :
  (∀ conn, conns st !! c = Some conn →
     open_extension_record (f conn) = open_extension_record conn) →
  extensions_kept st (set_conns (alter f c) st).
Proof.
  intros He. unfold extensions_kept, is_open_extension.
  cbn [set_conns conns next_conn extension target].
  do 3 (split; [reflexivity|]). split; intros x.
  - rewrite lookup_alter. case_decide; [subst|reflexivity].
    destruct (conns st !! x) eqn:Hx; simpl; auto.
  - rewrite lookup_alter. case_decide; [subst|reflexivity].
    now rewrite fmap_is_Some.
Qed.

Lemma registry_kept_refl st : registry_kept st st.
Proof. unfold registry_kept, extensions_kept. tauto. Qed.

Lemma registry_kept_trans st1 st2 st3 :
  registry_kept st1 st2 → registry_kept st2 st3 → registry_kept st1 st3.
Proof.
  intros [He Hc] [He' Hc']. split.
  - eapply extensions_kept_trans; eassumption.
  - intros c. now rewrite Hc', Hc.
Qed.

Lemma registry_kept_same_conns st st' :
  conns st' = conns st → next_conn st' = next_conn st →
  extension st' = extension st → target st' = target st →
  registry_kept st st'.
Proof.
  intros Hc ? ? ?. split; [now apply extensions_kept_same_conns|].
  unfold is_open_client. now rewrite Hc.
Qed.

Lemma registry_kept_alter st c (f : connection → connection) :
  (∀ conn, open_client_record (f conn) = open_client_record conn) →
  (∀ conn, open_extension_record (f conn) = open_extension_record conn) →
  registry_kept st (set_conns (alter f c) st).
Proof.
  intros Hc He. split; [apply extensions_kept_alter; auto|].
  intros x. unfold is_open_client. cbn [set_conns conns].
  rewrite lookup_alter. case_decide; [subst|reflexivity].
  destruct (conns st !! x); simpl; auto.
Qed.

Lemma inv_kept st st' : inv st → extensions_kept st st' → inv st'.
Proof.
  intros (Hd & He & Ht) (Hn & Hx & Htg & Hoe & Hdom).
  split; [|split].
  - intros c Hc. rewrite Hn. now apply Hd, Hdom.
  - intros e. rewrite Hoe, Hx. apply He.
  - rewrite Htg, Hx. apply Ht.
Qed.

Lemma inv_init : inv init.
Proof.
  split; [|split]; simpl.
  - intros c [x Hx]. now rewrite lookup_empty in Hx.
  - intros e. unfold is_open_extension. simpl. rewrite lookup_empty.
    split; discriminate.
  - discriminate.
Qed.

Lemma extension_in_registry st e :
  inv st → extension st = Some e → (e < next_conn st)%nat.
Proof.
  intros (Hd & He & _) Hx. apply Hd. apply He in Hx.
  unfold is_open_extension in Hx.
  destruct (conns st !! e) eqn:E; [eauto|discriminate].
Qed.

Lemma inv_accept_client st : inv st → inv (accept_client st).1.
Proof.
  intros Hinv. pose proof Hinv as (Hd & He & Ht).
  unfold accept_client. split; [|split]; cbn.
  - intros c. rewrite lookup_insert. case_decide; [lia|].
    intros Hc. apply Hd in Hc. lia.
  - intros e. unfold is_open_extension. cbn. rewrite lookup_insert.
    case_decide; [subst|apply He]. split; [discriminate|].
    intros Hx. apply extension_in_registry in Hx; [lia|assumption].
  - apply Ht.
Qed.

(** After the relay has closed the extension, or lost it, no open
    extension record is left. *)
Lemma inv_close_extension st e s :
  inv st → extension st = Some e → s ≠ Open →
  inv (set_conns (alter (set_conn_state s) e) (extension_loss st).1).
Proof.
  intros (Hd & He & Ht) Hx Hs. split; [|split]; cbn.
  - intros c. rewrite lookup_alter. case_decide; [subst|apply Hd].
    rewrite fmap_is_Some. apply Hd.
  - intros x. split; [|discriminate].
    unfold is_open_extension. cbn. rewrite lookup_alter. case_decide.
    + subst. destruct (conns st !! x) as [[cc|ec]|]; simpl; try discriminate.
      destruct s; try discriminate. congruence.
    + intros Ho. apply He in Ho. congruence.
  - discriminate.
Qed.

Lemma close_extension_state st e code reason :
  (close_extension st e code reason).1
  = set_conns (alter (set_conn_state Closing) e) (extension_loss st).1.
Proof. reflexivity. Qed.

Lemma inv_accept_extension st id origin page :
  inv st → inv (accept_extension st id origin page).1.
Proof.
  intros Hinv.
  assert (∃ st1, inv st1 ∧ extension st1 = None ∧
                 (accept_extension st id origin page).1
                 = {| conns := <[next_conn st1 :=
                          ExtensionConn {| ec_state := Open;
                                           ec_extensionId := id;
                                           ec_origin := origin |}]> (conns st1);
                      next_conn := S (next_conn st1);
                      extension := Some (next_conn st1);
                      target := synthetic_target <$> page;
                      next_relay_id := next_relay_id st1;
                      pending := pending st1; sessions := sessions st1;
                      counters := counters st1 |}) as (st1 & Hinv1 & Hx1 & ->).
  { unfold accept_extension. destruct (extension st) as [old|] eqn:Hx.
    - eexists. split; [|split; [|reflexivity]].
      + eapply inv_kept;
          [apply (inv_close_extension st old Closing); auto; discriminate|].
        now apply extensions_kept_same_conns.
      + reflexivity.
    - exists st. auto. }
  destruct Hinv1 as (Hd & He & Ht). split; [|split]; cbn.
  - intros c. rewrite lookup_insert. case_decide; [lia|].
    intros Hc. apply Hd in Hc. lia.
  - intros x. unfold is_open_extension. cbn. rewrite lookup_insert.
    case_decide; [subst; split; reflexivity|].
    split; [|congruence]. intros Ho. apply He in Ho. congruence.
  - intros t Ht'. split; [eauto|].
    destruct page as [page|]; [|discriminate].
    now injection Ht' as <-.
Qed.

Lemma inv_announce st e page : inv st → inv (announce st e page).1.
Proof.
  intros Hinv. unfold announce. case_bool_decide as Hx; [|assumption].
  destruct (target st) eqn:Ht; [assumption|].
  destruct Hinv as (Hd & He & _). split; [|split]; cbn.
  - exact Hd.
  - exact He.
  - intros t [= <-]. split; [eauto | reflexivity].
Qed.

Lemma inv_connection_lost st c : inv st → inv (connection_lost st c).1.
Proof.
  intros Hinv. unfold connection_lost.
  destruct (conns st !! c) as [[cc|ec]|] eqn:Hc; [| |assumption].
  - cbn [fst]. eapply inv_kept; [exact Hinv|].
    eapply extensions_kept_trans;
      [|apply extensions_kept_same_conns; reflexivity].
    eapply extensions_kept_trans;
      [|apply extensions_kept_same_conns; reflexivity].
    apply extensions_kept_alter. intros conn. rewrite Hc.
    now intros [= <-].
  - case_bool_decide as Hx.
    + now apply (inv_close_extension st c Closed).
    + cbn [fst]. eapply inv_kept; [exact Hinv|].
      apply extensions_kept_alter. intros conn. rewrite Hc.
      intros [= <-]. cbn.
      destruct Hinv as (_ & He & _). specialize (He c).
      unfold is_open_extension in He. rewrite Hc in He. cbn in He.
      destruct (is_open (ec_state ec)); [|reflexivity].
      destruct Hx. now apply He.
Qed.

Lemma set_client_flags_kept st c a d :
  registry_kept st (set_client_flags c a d st).
Proof. apply registry_kept_alter; intros [cc|ec]; reflexivity. Qed.

Ltac kept :=
  repeat first
    [ apply registry_kept_refl
    | apply set_client_flags_kept
    | apply registry_kept_same_conns; reflexivity
    | eapply registry_kept_trans;
        [apply set_client_flags_kept
        |apply registry_kept_same_conns; reflexivity] ].

Lemma synthetic_kept st c id method params random :
  registry_kept st (synthetic st c id method params random).1.
Proof.
  unfold synthetic.
  repeat match goal with
         | |- context [if ?b then _ else _] => destruct b
         | |- context [match ?x with _ => _ end] => destruct x
         end; cbn [fst]; kept.
Qed.

Lemma forward_kept st c id method sessionId params now :
  registry_kept st (forward st c id method sessionId params now).1.
Proof.
  unfold forward. destruct (extension st) as [e|] eqn:Hx; [|kept].
  destruct (owns st c sessionId); [|kept].
  apply registry_kept_same_conns; cbn; congruence.
Qed.

Lemma client_data_kept st c d now random :
  registry_kept st (client_data st c d now random).1.
Proof.
  unfold client_data. destruct (is_open_client st c); [|kept].
  destruct (decode_client d) as [id method sessionId params|[id|]]; [|kept..].
  destruct (is_synthetic method);
    [apply synthetic_kept | apply forward_kept].
Qed.

Lemma route_event_kept st method sessionId params :
  registry_kept st (route_event st method sessionId params).1.
Proof.
  unfold route_event. destruct sessionId as [s|]; [|kept].
  destruct (owner st s); kept.
Qed.

Lemma extension_data_kept st e d :
  decode_extension d ≠ Invalid →
  registry_kept st (extension_data st e d).1.
Proof.
  intros Hd. unfold extension_data. case_bool_decide; [|kept].
  destruct (decode_extension d); try kept; try congruence.
  - destruct (pending st !! id); kept.
  - apply route_event_kept.
Qed.

Lemma sweep_kept st now : registry_kept st (sweep st now).1.
Proof. unfold sweep. cbn [fst]. kept. Qed.

Lemma inv_step st i : inv st → inv (step st i).1.
Proof.
  intros Hinv.
  destruct i as [supplied|origin page|c d now random|e d|e page|c|now];
    cbn [step].
  - destruct (gate_cdp supplied); [assumption|now apply inv_accept_client].
  - destruct (gate_extension origin); [assumption|now apply inv_accept_extension].
  - eapply inv_kept; [eassumption|apply client_data_kept].
  - destruct (decode_extension d) eqn:Hd;
      try (eapply inv_kept;
           [eassumption | apply extension_data_kept; congruence]).
    unfold extension_data. case_bool_decide; [|assumption].
    rewrite Hd, close_extension_state. now apply inv_close_extension.
  - now apply inv_announce.
  - now apply inv_connection_lost.
  - eapply inv_kept; [eassumption|apply sweep_kept].
Qed.

Lemma inv_run inputs : ∀ st, inv st → inv (run st inputs).1.
Proof.
  induction inputs as [|i rest IH]; intros st Hinv; [assumption|].
  cbn [run]. destruct (step st i) as [st1 acts1] eqn:Hs.
  specialize (IH st1). destruct (run st1 rest) as [st2 acts2].
  apply IH. replace st1 with (step st i).1 by now rewrite Hs.
  now apply inv_step.
Qed.

Lemma inv_reached inputs : inv (reached inputs).
Proof. apply inv_run, inv_init. Qed.





(** *** Facts: frames *)

Lemma no_open_extension st :
  inv st → extension st = None ↔ ∀ e, is_open_extension st e = false.
Proof.
  intros (_ & He & _). split.
  - intros Hx e. destruct (is_open_extension st e) eqn:Ho; [|reflexivity].
    apply He in Ho. congruence.
  - intros Hno. destruct (extension st) as [e|]; [|reflexivity].
    specialize (He e). rewrite Hno in He. destruct He as [_ He].
    now specialize (He eq_refl).
Qed.

(** C4.  A well-formed command of an open client whose method the relay
    does not answer itself, arriving while no extension connection is
    open, changes nothing and is answered at once, under its own id, with
    the error -32000 "browser not connected", and with nothing else: no
    frame goes to an extension. *)
Theorem not_connected_reply (inputs : list input) (c : conn_id) (d : ws_data)
    (now : Z) (random : string) (id : Z) (method : string)
    (sessionId : option string) (params : option json) :
  let st := reached inputs in
  is_open_client st c = true →
  (∀ e, is_open_extension st e = false) →
  decode_client d = Command id method sessionId params →
  is_synthetic method = false →
  step st (ClientData c d now random)
  = (st, [ToClient c
            (JObj [("id", JNum id);
                   ("error", JObj [("code", JNum (-32000));
                                   ("message", JStr "browser not connected")])])]).
Proof.
  intros st Hc Hno Hd Hm.
  assert (Hx : extension st = None)
    by (apply no_open_extension; [apply inv_reached | exact Hno]).
  cbn [step]. unfold client_data, forward. now rewrite Hc, Hd, Hm, Hx.
Qed.











Lemma client_malformed_protocol_error d oid :
  decode_client d = Malformed oid → client_protocol_error d oid.
Proof.
  destruct d as [s|bytes]; cbn [decode_client].
  2: { intros [= <-]. constructor. }
  destruct (JSON_parse s) as [j|] eqn:Hp.
  2: { intros [= <-]. now constructor. }
  unfold parse_command.
  destruct (jget "id" j) as [v|] eqn:Hid.
  2: { intros [= <-]. eapply cli_no_id; eassumption. }
  destruct v as [|b|id|x|items|props];
    try (intros [= <-]; eapply cli_id_type; [eassumption..|discriminate]).
  destruct (jget "method" j) as [m|] eqn:Hm.
  2: { intros [= <-]. eapply cli_no_method; eassumption. }
  destruct m as [|b|n|m|items|props];
    try (intros [= <-]; eapply cli_method_type; [eassumption..|discriminate]).
  destruct (jget "sessionId" j) as [v|] eqn:Hs.
  - destruct v as [|b|n|x|items|props];
      try (intros [= <-]; eapply cli_session_type;
           [eassumption..|discriminate]).
    cbn [optional_string].
    destruct (jget "params" j) as [v|] eqn:Hq; [|discriminate].
    destruct v as [|b|n|y|items|props]; try discriminate;
      (intros [= <-]; eapply cli_params_type; [eassumption..|discriminate]).
  - cbn [optional_string].
    destruct (jget "params" j) as [v|] eqn:Hq; [|discriminate].
    destruct v as [|b|n|y|items|props]; try discriminate;
      (intros [= <-]; eapply cli_params_type; [eassumption..|discriminate]).
Qed.


Lemma extension_invalid_protocol_error d :
  decode_extension d = Invalid → extension_protocol_error d.
Proof.
  destruct d as [s|bytes]; cbn [decode_extension]; [|constructor].
  destruct (JSON_parse s) as [j|] eqn:Hp; [|now constructor].
  unfold parse_extension.
  destruct (jget "id" j) as [v|] eqn:Hid.
  { destruct v; try discriminate;
      (intros _; eapply ext_id_type; [eassumption..|discriminate]). }
  destruct (jget "method" j) as [v|] eqn:Hm.
  2: { intros _. eapply ext_no_id_no_method; eassumption. }
  destruct v as [|b|n|m|items|props];
    try (intros _; eapply ext_method_type; [eassumption..|discriminate]).
  destruct (String.eqb m "forwardCDPEvent") eqn:Hev.
  - apply String.eqb_eq in Hev as ->. intros Hinv.
    eapply ext_event_type; [eassumption..|].
    intros p m Hq Hpm. rewrite Hq, Hpm in Hinv.
    destruct (optional_string _); [discriminate|reflexivity].
  - destruct (String.eqb m "log"); [discriminate|].
    destruct (String.eqb m "pong"); discriminate.
Qed.

End Machine.

(** *** A concrete relay

    One client, one extension, and a stand-in for [JSON.parse] that knows
    the frames used below by name. *)

Definition open_config : config :=
  {| token := None; commandTimeoutMs := 30000; longCommandTimeoutMs := 60000;
     longMethods := ["Page.navigate"; "Runtime.evaluate"] |}.

Definition example_parse (s : string) : option json :=
  if String.eqb s "getTargets" then
    Some (JObj [("id", JNum 1); ("method", JStr "Target.getTargets")])
  else if String.eqb s "navigate" then
    Some (JObj [("id", JNum 4); ("method", JStr "Page.navigate");
                ("params", JObj [("url", JStr "about:blank")])])
  else if String.eqb s "evaluate in S1" then
    Some (JObj [("id", JNum 3); ("method", JStr "Runtime.evaluate");
                ("sessionId", JStr "S1");
                ("params", JObj [("expression", JStr "1+1")])])
  else if String.eqb s "getVersion in S1" then
    Some (JObj [("id", JNum 5); ("method", JStr "Browser.getVersion");
                ("sessionId", JStr "S1")])
  else if String.eqb s "getTargets in S1" then
    Some (JObj [("id", JNum 6); ("method", JStr "Target.getTargets");
                ("sessionId", JStr "S1")])
  else if String.eqb s "no method" then
    Some (JObj [("id", JNum 1)])
  else if String.eqb s "attach page-1" then
    Some (JObj [("id", JNum 2); ("method", JStr "Target.attachToTarget");
                ("params", JObj [("targetId", JStr "page-1");
                                 ("flatten", JBool true)])])
  else if String.eqb s "event in S1" then
    Some (JObj [("method", JStr "forwardCDPEvent");
                ("params", JObj [("method", JStr "Page.loadEventFired");
                                 ("sessionId", JStr "S1");
                                 ("params", JObj [])])])
  else if String.eqb s "event in S9" then
    Some (JObj [("method", JStr "forwardCDPEvent");
                ("params", JObj [("method", JStr "Page.loadEventFired");
                                 ("sessionId", JStr "S9");
                                 ("params", JObj [])])])
  else if String.eqb s "response 1" then
    Some (JObj [("id", JNum 1); ("result", JObj [("value", JNum 2)])])
  else None.

Definition example_version : json :=
  JObj [("protocolVersion", JStr "1.3"); ("product", JStr "Chrome")].

Definition example_invalid_request : cdp_error :=
  {| code := -32600; message := "invalid request" |}.

Definition example_page : Announcement :=
  {| an_targetId := "page-1"; an_title := "Example"; an_url := "about:blank";
     an_browserContextId := "default" |}.

Definition example_step : state → input → state * list action :=
  step open_config [] example_parse example_version example_invalid_request.

(** A client has connected. *)
Definition one_client : state :=
  reached open_config [] example_parse example_version
    example_invalid_request [UpgradeCdp None].

(** A client and then the production extension have connected. *)
Definition client_and_extension : state :=
  reached open_config [] example_parse example_version
    example_invalid_request
    [UpgradeCdp None;
     UpgradeExtension
       (Some "chrome-extension://jfeammnjpkecdekppnclgkkffahnhfhe")
       (Some example_page)].

(** Two clients and the extension have connected, and client 0 has
    attached to the page as session S1. *)
Definition two_clients_attached : state :=
  reached open_config [] example_parse example_version
    example_invalid_request
    [UpgradeCdp None; UpgradeCdp None;
     UpgradeExtension
       (Some "chrome-extension://jfeammnjpkecdekppnclgkkffahnhfhe")
       (Some example_page);
     ClientData 0 (TextData "attach page-1") 0 "S1"].

(** The relay of scenario 5: started with a token. *)
Definition secured_config : config :=
  {| token := Some "secret-token"; commandTimeoutMs := 30000;
     longCommandTimeoutMs := 60000; longMethods := [] |}.

Definition secured_step : state → input → state * list action :=
  step secured_config [] example_parse example_version
    example_invalid_request.

Example secured_wrong_token :
  secured_step init (UpgradeCdp (Some "wrong"))
  = (init, [Reject 401 "bad-token"]).
Proof. reflexivity. Qed.

Example secured_last_byte :
  secured_step init (UpgradeCdp (Some "secret-tokem"))
  = (init, [Reject 401 "bad-token"])
  ∧ ct_scan (token_bytes "secret-tokem") (token_bytes "secret-token") 0 0
    = (3%Z, 12%nat)
  ∧ ct_scan (token_bytes "Xecret-token") (token_bytes "secret-token") 0 0
    = (43%Z, 12%nat)
  ∧ gate_cdp_run secured_config (Some "secret-tokem")
    = (Some "bad-token", 12%nat)
  ∧ gate_cdp_run secured_config (Some "Xecret-token")
    = (Some "bad-token", 12%nat)
  ∧ gate_cdp_run secured_config (Some "secret-token") = (None, 12%nat).
Proof. repeat split. Qed.

Example secured_no_token :
  secured_step init (UpgradeCdp None) = (init, [Reject 401 "no-token"]).
Proof. reflexivity. Qed.

Example secured_right_token :
  (secured_step init (UpgradeCdp (Some "secret-token"))).2 = [Accept 0].
Proof. reflexivity. Qed.

Example extension_replaced :
  (example_step client_and_extension
     (UpgradeExtension
        (Some "chrome-extension://jfeammnjpkecdekppnclgkkffahnhfhe")
        (Some example_page))).2
  = [CloseConn 1 1000 "replaced"; Accept 2].
Proof. reflexivity. Qed.

Example extension_unlisted :
  example_step one_client
    (UpgradeExtension
       (Some "chrome-extension://aaaaaaaaaaaaaaaaaaaaaaaaaaaaaaaa")
       (Some example_page))
  = (one_client, [Reject 403 "unknown-ext"]).
Proof. reflexivity. Qed.

Example extension_no_origin :
  example_step one_client (UpgradeExtension None (Some example_page))
  = (one_client, [Reject 403 "bad-origin"]).
Proof. reflexivity. Qed.

Example client_garbage :
  example_step one_client (ClientData 0 (TextData "not valid json {{{") 0 "")
  = (one_client, [])
  ∧ example_step one_client (ClientData 0 (TextData "no method") 0 "")
    = (one_client, [ToClient 0 (error_frame 1 example_invalid_request)]).
Proof. split; reflexivity. Qed.

Example extension_garbage :
  (example_step client_and_extension
     (ExtensionData 1 (TextData "invalid json"))).2
  = [CloseConn 1 1002 "protocol error"].
Proof. reflexivity. Qed.

Lemma one_client_no_extension e : is_open_extension one_client e = false.
Proof.
  revert e. apply no_open_extension; [apply inv_reached | reflexivity].
Qed.

Lemma not_connected_reply_witness :
  example_step one_client (ClientData 0 (TextData "navigate") 0 "")
  = (one_client,
     [ToClient 0
        (JObj [("id", JNum 4);
               ("error", JObj [("code", JNum (-32000));
                               ("message", JStr "browser not connected")])])]).
Proof.
  apply (not_connected_reply open_config [] example_parse example_version
           example_invalid_request [UpgradeCdp None] 0 (TextData "navigate")
           0 "" 4 "Page.navigate" None
           (Some (JObj [("url", JStr "about:blank")])));
    [reflexivity | exact one_client_no_extension | reflexivity | reflexivity].
Defined.



Example getTargets_with_extension :
  (example_step client_and_extension
     (ClientData 0 (TextData "getTargets") 0 "")).2
  = [ToClient 0
       (JObj [("id", JNum 1);
              ("result",
               JObj [("targetInfos",
                      JArr [JObj [("targetId", JStr "page-1");
                                  ("type", JStr "page");
                                  ("title", JStr "Example");
                                  ("url", JStr "about:blank");
                                  ("attached", JBool false);
                                  ("browserContextId", JStr "default")]])])])].
Proof. reflexivity. Qed.

(** An extension that connects without announcing its page is open but
    not attached: the list of targets stays empty until it announces. *)
Definition extension_not_announced : state :=
  reached open_config [] example_parse example_version
    example_invalid_request
    [UpgradeCdp None;
     UpgradeExtension
       (Some "chrome-extension://jfeammnjpkecdekppnclgkkffahnhfhe") None].

Example getTargets_before_announcement :
  is_open_extension extension_not_announced 1 = true
  ∧ (example_step extension_not_announced
       (ClientData 0 (TextData "getTargets") 0 "")).2
    = [ToClient 0
         (JObj [("id", JNum 1);
                ("result", JObj [("targetInfos", JArr [])])])]
  ∧ (example_step
       (example_step extension_not_announced
          (ExtensionAnnounce 1 example_page)).1
       (ClientData 0 (TextData "getTargets") 0 "")).2
    = (example_step client_and_extension
         (ClientData 0 (TextData "getTargets") 0 "")).2.
Proof. repeat split. Qed.

Example event_to_owner_only :
  example_step two_clients_attached (ExtensionData 2 (TextData "event in S1"))
  = (two_clients_attached,
     [ToClient 0
        (JObj [("method", JStr "Page.loadEventFired");
               ("sessionId", JStr "S1"); ("params", JObj [])])]).
Proof. reflexivity. Qed.

Example event_without_owner :
  (example_step two_clients_attached
     (ExtensionData 2 (TextData "event in S9"))).2 = []
  ∧ dropped_events
      (counters (example_step two_clients_attached
                   (ExtensionData 2 (TextData "event in S9"))).1) = 1%nat.
Proof. split; reflexivity. Qed.

Example foreign_session_rejected :
  example_step two_clients_attached
    (ClientData 1 (TextData "evaluate in S1") 0 "")
  = (two_clients_attached, [ToClient 1 (error_frame 3 session_not_owned)]).
Proof. reflexivity. Qed.

Example own_session_forwarded :
  (example_step two_clients_attached
     (ClientData 0 (TextData "evaluate in S1") 0 "")).2
  = [ToExtension 2
       (JObj [("id", JNum 1); ("method", JStr "Runtime.evaluate");
              ("sessionId", JStr "S1");
              ("params", JObj [("expression", JStr "1+1")])])]
  ∧ (example_step
       (example_step two_clients_attached
          (ClientData 0 (TextData "evaluate in S1") 0 "")).1
       (ExtensionData 2 (TextData "response 1"))).2
    = [ToClient 0
         (JObj [("id", JNum 3); ("result", JObj [("value", JNum 2)])])].
Proof. split; reflexivity. Qed.


End Relay.


(** ** Extension and client messages ([test/unit/message-parser.test.ts])

    The message handlers that the unit test spells out.  [JSON.parse] is a
    parameter; what it returns is a JSON value, whose numbers are left
    abstract since the handlers only ask whether a value is a number. *)

Module MessageParser.

#[local] Set Warnings "-register-all".

Inductive value (number : Type) : Type :=
| Null
| Bool (b : bool)
| Number (n : number)
| Str (s : string)
| Array (items : list (value number))
| Object (props : list (string * value number)).

Arguments Null {number}.
Arguments Bool {number} b.
Arguments Number {number} n.
Arguments Str {number} s.
Arguments Array {number} items.
Arguments Object {number} props.

(** A computation that returns or throws. *)
Inductive completion (A : Type) : Type :=
| Normal (a : A)
| Throw.

Arguments Normal {A} a.
Arguments Throw {A}.

#[export] Instance completion_bind : MBind completion :=
  λ A B f m,
    match m with
    | Normal a => f a
    | Throw => Throw
    end.

Inductive message_type :=
| response | event | log | pong | unknown | invalid.

Section Handlers.

Variable number : Type.
Variable JSON_parse : string → option (value number).

(** The properties of a parsed object, as [JSON.parse] leaves them: the
    first binding of a key is the one in force. *)
Fixpoint own_property (k : string) (props : list (string * value number)) :
    option (value number) :=
  match props with
  | [] => None
  | (k', v) :: rest => if String.eqb k k' then Some v else own_property k rest
  end.

(** [v.k] for the keys [id] and [method], which no prototype defines:
    reading a property of [null] throws, a value that is no object has
    neither; [None] stands for [undefined]. *)
Definition get (k : string) (v : value number) :
    completion (option (value number)) :=
  match v with
  | Null => Throw
  | Object props => Normal (own_property k props)
  | _ => Normal None
  end.

(** [x !== undefined] *)
Definition defined (x : option (value number)) : bool :=
  match x with
  | Some _ => true
  | None => false
  end.

(** [x === s] for a string literal [s] *)
Definition is_string (s : string) (x : option (value number)) : bool :=
  match x with
  | Some (Str s') => String.eqb s' s
  | _ => false
  end.

(** [typeof x] *)
Definition typeof (x : option (value number)) : string :=
  match x with
  | None => "undefined"
  | Some Null => "object"
  | Some (Bool _) => "boolean"
  | Some (Number _) => "number"
  | Some (Str _) => "string"
  | Some (Array _) => "object"
  | Some (Object _) => "object"
  end.

(** [safeParseMessage(data)]; the value [Null] is JavaScript's [null]. *)
Definition safeParseMessage (data : string) : value number :=
  match JSON_parse data with
  | Some v => v
  | None => Null
  end.

(** [msg.id !== undefined && msg.method === undefined] *)
Definition isResponseMessage (msg : value number) : completion bool :=
  id ← get "id" msg ;
  if defined id then
    method ← get "method" msg ;
    Normal (negb (defined method))
  else Normal false.

Definition isEventMessage (msg : value number) : completion bool :=
  method ← get "method" msg ; Normal (is_string "forwardCDPEvent" method).

Definition isLogMessage (msg : value number) : completion bool :=
  method ← get "method" msg ; Normal (is_string "log" method).

Definition isPongMessage (msg : value number) : completion bool :=
  method ← get "method" msg ; Normal (is_string "pong" method).

Record Handled := {
  type : message_type;
  message : option (value number)
}.

(** [handleMessage(data)]: only [JSON.parse] stands inside the [try]. *)
Definition handleMessage (data : string) : completion Handled :=
  match JSON_parse data with
  | None => Normal {| type := invalid; message := None |}
  | Some msg =>
      id ← get "id" msg ;
      if defined id then Normal {| type := response; message := Some msg |}
      else
        method ← get "method" msg ;
        if is_string "forwardCDPEvent" method
        then Normal {| type := event; message := Some msg |}
        else
          method ← get "method" msg ;
          if is_string "log" method
          then Normal {| type := log; message := Some msg |}
          else
            method ← get "method" msg ;
            if is_string "pong" method
            then Normal {| type := pong; message := Some msg |}
            else Normal {| type := unknown; message := Some msg |}
  end.

(** [parseCDPCommand(data)]: the whole body stands inside the [try], so
    whatever throws gives [null], here [None]. *)
Definition parseCDPCommand (data : string) : option (value number) :=
  match JSON_parse data with
  | None => None
  | Some parsed =>
      let checked :=
        id ← get "id" parsed ;
        if negb (String.eqb (typeof id) "number") then Normal None
        else
          method ← get "method" parsed ;
          if negb (String.eqb (typeof method) "string") then Normal None
          else Normal (Some parsed) in
      match checked with
      | Normal r => r
      | Throw => None
      end
  end.

Ltac types_done :=
  repeat (split || intro); cbn in *;
  repeat match goal with H : _ ∧ _ |- _ => destruct H end;
  first [reflexivity | discriminate | congruence].

Lemma get_not_null k (msg : value number) :
  msg ≠ Null → ∃ x, get k msg = Normal x.
Proof. destruct msg; cbn [get]; eauto. congruence. Qed.

Lemma typeof_number x :
  String.eqb (typeof x) "number" = true → ∃ n, x = Some (Number n).
Proof. destruct x as [[]|]; try discriminate. eauto. Qed.

Lemma typeof_string x :
  String.eqb (typeof x) "string" = true → ∃ s, x = Some (Str s).
Proof. destruct x as [[]|]; try discriminate. eauto. Qed.

(** X11.  [handleMessage] reports [invalid] exactly when [JSON.parse]
    throws and otherwise hands the parsed message back; it throws itself
    exactly on a text that parses to [null]. *)
Theorem handleMessage_invalid (data : string) :
  (handleMessage data = Throw ↔ JSON_parse data = Some Null)
  ∧ (∀ r, handleMessage data = Normal r →
       message r = JSON_parse data
       ∧ (type r = invalid ↔ JSON_parse data = None)).
Proof.
  unfold handleMessage.
  destruct (JSON_parse data) as [msg|] eqn:Hp.
  2: { split; [split; discriminate|].
       intros r [= <-]. cbn. split; [reflexivity | split; reflexivity]. }
  destruct (get "id" msg) as [id|] eqn:Hid.
  2: { assert (msg = Null) as ->
         by (destruct msg; try discriminate; reflexivity).
       cbn. split; [split; reflexivity | discriminate]. }
  assert (Hnn : msg ≠ Null) by (intros ->; discriminate).
  destruct (get_not_null "method" msg Hnn) as [m Hm].
  rewrite Hm. cbn [mbind completion_bind].
  split.
  - split; [|intros [= ->]; congruence].
    repeat match goal with
           | |- context [if ?b then _ else _] => destruct b
           end; discriminate.
  - intros r.
    repeat match goal with
           | |- context [if ?b then _ else _] => destruct b
           end; intros [= <-]; cbn; (split; [reflexivity|]);
      split; discriminate.
Qed.

(** X12.  The type [handleMessage] reports agrees with the predicates, an
    [id] coming first: [response] stands for a defined [id], whatever the
    method, and the three method types for an undefined [id] together with
    the predicate of that method. *)
Theorem handleMessage_types (data : string) (msg : value number) (r : Handled) :
  JSON_parse data = Some msg →
  handleMessage data = Normal r →
  (∃ id, get "id" msg = Normal id ∧
     (type r = response ↔ defined id = true) ∧
     (type r = event ↔
        defined id = false ∧ isEventMessage msg = Normal true) ∧
     (type r = log ↔ defined id = false ∧ isLogMessage msg = Normal true) ∧
     (type r = pong ↔ defined id = false ∧ isPongMessage msg = Normal true))
  ∧ (isResponseMessage msg = Normal true → type r = response).
Proof.
  intros Hp. unfold handleMessage. rewrite Hp.
  unfold isResponseMessage, isEventMessage, isLogMessage, isPongMessage.
  destruct (get "id" msg) as [id|] eqn:Hid; [|discriminate].
  destruct (get "method" msg) as [m|] eqn:Hm;
    [|destruct msg; discriminate].
  cbn [mbind completion_bind]. destruct (defined id) eqn:Hd.
  { intros [= <-]. split; [exists id|]; types_done. }
  destruct m as [[|b|n|s|items|props]|]; cbn [is_string];
    try (intros [= <-]; split; [exists id|]; types_done).
  destruct (String.eqb s "forwardCDPEvent") eqn:He;
    [apply String.eqb_eq in He as ->;
     intros [= <-]; split; [exists id|]; types_done|].
  destruct (String.eqb s "log") eqn:Hl;
    [apply String.eqb_eq in Hl as ->;
     intros [= <-]; split; [exists id|]; types_done|].
  destruct (String.eqb s "pong") eqn:Hg;
    [apply String.eqb_eq in Hg as ->|];
    intros [= <-]; (split; [exists id|]); types_done.
Qed.

(** X13.  What [parseCDPCommand] accepts is the parsed value itself, with
    a number as [id] and a string as [method]; handed to the extension
    handler, such a command counts as a [response], though
    [isResponseMessage] rejects it for its method. *)
Theorem parseCDPCommand_accepted (data : string) (cmd : value number) :
  parseCDPCommand data = Some cmd →
  JSON_parse data = Some cmd
  ∧ (∃ n, get "id" cmd = Normal (Some (Number n)))
  ∧ (∃ s, get "method" cmd = Normal (Some (Str s)))
  ∧ handleMessage data = Normal {| type := response; message := Some cmd |}
  ∧ isResponseMessage cmd = Normal false.
Proof.
  unfold parseCDPCommand, handleMessage, isResponseMessage.
  destruct (JSON_parse data) as [parsed|]; [|discriminate].
  destruct (get "id" parsed) as [id|] eqn:Hid; [|discriminate].
  cbn [mbind completion_bind].
  destruct (String.eqb (typeof id) "number") eqn:Hn; [|discriminate].
  apply typeof_number in Hn as [n ->]. cbn [negb].
  destruct (get "method" parsed) as [m|] eqn:Hm; [|discriminate].
  cbn [mbind completion_bind].
  destruct (String.eqb (typeof m) "string") eqn:Hs; [|discriminate].
  apply typeof_string in Hs as [s ->]. cbn [negb].
  intros [= <-]. rewrite Hid, Hm. cbn. eauto 10.
Qed.

End Handlers.

(** A parser for the texts of the examples, which are written with single
    quotes where JSON has double ones. *)
Definition sample_parse (data : string) : option (value Z) :=
  if String.eqb data "{'id': 1, 'method': 'pong'}"
  then Some (Object [("id", Number 1%Z); ("method", Str "pong")])
  else if String.eqb data "{'method': 'pong'}"
  then Some (Object [("method", Str "pong")])
  else if String.eqb data "null" then Some Null
  else None.

(** A message with an [id] and a method is a [response] for the handler,
    and a pong, not a response, for the predicates. *)
Example handleMessage_id_first :
  handleMessage Z sample_parse "{'id': 1, 'method': 'pong'}"
  = Normal {| type := response;
              message := Some (Object [("id", Number 1%Z);
                                       ("method", Str "pong")]) |}
  ∧ isResponseMessage Z
      (Object [("id", Number 1%Z); ("method", Str "pong")]) = Normal false
  ∧ isPongMessage Z
      (Object [("id", Number 1%Z); ("method", Str "pong")]) = Normal true.
Proof. repeat split. Qed.

Example handleMessage_null :
  handleMessage Z sample_parse "null" = Throw
  ∧ parseCDPCommand Z sample_parse "null" = None
  ∧ safeParseMessage Z sample_parse "null" = Null
  ∧ safeParseMessage Z sample_parse "not json" = Null.
Proof. repeat split. Qed.

Lemma handleMessage_types_witness :
  (∃ id, get Z "id" (Object [("method", Str "pong")]) = Normal id ∧
     (pong = response ↔ defined Z id = true) ∧
     (pong = event ↔
        defined Z id = false ∧
        isEventMessage Z (Object [("method", Str "pong")]) = Normal true) ∧
     (pong = log ↔
        defined Z id = false ∧
        isLogMessage Z (Object [("method", Str "pong")]) = Normal true) ∧
     (pong = pong ↔
        defined Z id = false ∧
        isPongMessage Z (Object [("method", Str "pong")]) = Normal true))
  ∧ (isResponseMessage Z (Object [("method", Str "pong")]) = Normal true →
     pong = response).
Proof.
  apply (handleMessage_types Z sample_parse "{'method': 'pong'}"
           (Object [("method", Str "pong")])
           {| type := pong;
              message := Some (Object [("method", Str "pong")]) |});
    reflexivity.
Defined.

Lemma parseCDPCommand_accepted_witness :
  sample_parse "{'id': 1, 'method': 'pong'}"
  = Some (Object [("id", Number 1%Z); ("method", Str "pong")])
  ∧ (∃ n, get Z "id" (Object [("id", Number 1%Z); ("method", Str "pong")])
          = Normal (Some (Number n)))
  ∧ (∃ s, get Z "method" (Object [("id", Number 1%Z); ("method", Str "pong")])
          = Normal (Some (Str s)))
  ∧ handleMessage Z sample_parse "{'id': 1, 'method': 'pong'}"
    = Normal {| type := response;
                message := Some (Object [("id", Number 1%Z);
                                         ("method", Str "pong")]) |}
  ∧ isResponseMessage Z
      (Object [("id", Number 1%Z); ("method", Str "pong")]) = Normal false.
Proof.
  apply (parseCDPCommand_accepted Z sample_parse
           "{'id': 1, 'method': 'pong'}"
           (Object [("id", Number 1%Z); ("method", Str "pong")])).
  reflexivity.
Defined.

End MessageParser.


(** ** The profile lock ([src/launcher.ts])

    [isProfileLocked] over the file system and the process table as
    parameters: what [path.join], [fs.lstatSync], [fs.readlinkSync],
    [parseInt] and [process.kill] give.  A call that throws gives
    [None], or [false] for [process.kill]. *)

Module Launcher.

(** The two questions the code asks of an [fs.Stats]. *)
Record Stats := {
  isFile : bool;
  isSymbolicLink : bool
}.

(** [target.match(/-(\d+)$/)], giving the group: the first place where a
    hyphen is followed by digits, at least one, up to the end. *)
Fixpoint match_pid (target : string) : option string :=
  match target with
  | EmptyString => None
  | String c t =>
      if Ascii.eqb c "-" && all_digits t && negb (String.eqb t "")
      then Some t
      else match_pid t
  end.

Section FileSystem.

Variable number : Type.
Variable path_join : string → string → string.
Variable lstatSync : string → option Stats.
Variable readlinkSync : string → option string.
Variable parseInt : string → number.
(** [process.kill(pid, 0)] returns, rather than throws. *)
Variable process_kill : number → bool.

Definition isProfileLocked (userDataDir : string) : bool :=
  let lockFile := path_join userDataDir "SingletonLock" in
  match lstatSync lockFile with
  | None => false
  | Some stats =>
      if isSymbolicLink stats then
        match readlinkSync lockFile with
        | None => false
        | Some target =>
            match match_pid target with
            | Some pidMatch =>
                if process_kill (parseInt pidMatch) then true else false
            | None => isFile stats || isSymbolicLink stats
            end
        end
      else isFile stats || isSymbolicLink stats
  end.

End FileSystem.

Lemma all_digits_app a b :
  all_digits (a ++ b) = all_digits a && all_digits b.
Proof.
  induction a as [|c a IH]; simpl; [reflexivity|].
  now rewrite IH, andb_assoc.
Qed.

Lemma match_pid_here ds :
  all_digits ds = true → ds ≠ "" → match_pid (String "-" ds) = Some ds.
Proof.
  intros Hd Hne. cbn [match_pid]. rewrite Hd.
  destruct ds; [congruence | reflexivity].
Qed.

(** The expression finds the digits after the last hyphen. *)
Lemma match_pid_suffix host ds :
  all_digits ds = true → ds ≠ "" →
  match_pid (host ++ String "-" ds) = Some ds.
Proof.
  intros Hd Hne. induction host as [|c host IH]; cbn [String.append].
  - now apply match_pid_here.
  - cbn [match_pid]. rewrite all_digits_app. cbn [all_digits].
    replace (is_digit "-") with false by reflexivity.
    now rewrite andb_false_r, andb_false_r.
Qed.

Lemma match_pid_shape target ds :
  match_pid target = Some ds →
  ∃ host, target = host ++ String "-" ds ∧ all_digits ds = true ∧ ds ≠ "".
Proof.
  induction target as [|c t IH]; [discriminate|].
  cbn [match_pid].
  destruct (Ascii.eqb c "-" && all_digits t && negb (String.eqb t ""))
    eqn:Hc.
  - intros [= <-].
    apply andb_true_iff in Hc as [Hc Hne].
    apply andb_true_iff in Hc as [Hc Hd].
    apply Ascii.eqb_eq in Hc as ->. exists "".
    repeat split; [assumption|]. intros ->. discriminate Hne.
  - intros Hm. destruct (IH Hm) as (host & -> & Hd & Hne).
    exists (String c host). auto.
Qed.

(** X14.  The expression [/-(\d+)$/] matches exactly the texts that end
    in a hyphen and a non-empty run of digits, and its group is that run,
    whatever hyphens and digits stand before. *)
Theorem match_pid_spec (target ds : string) :
  match_pid target = Some ds ↔
  ∃ host, target = host ++ String "-" ds ∧ all_digits ds = true ∧ ds ≠ "".
Proof.
  split; [apply match_pid_shape|].
  intros (host & -> & Hd & Hne). now apply match_pid_suffix.
Qed.

(** X15.  For a lock that is a link to [host-pid], the profile is locked
    exactly when signalling the process of that pid succeeds. *)
Theorem isProfileLocked_pid (number : Type)
    (path_join : string → string → string)
    (lstatSync : string → option Stats)
    (readlinkSync : string → option string)
    (parseInt : string → number) (process_kill : number → bool)
    (userDataDir host pid : string) (stats : Stats) :
  lstatSync (path_join userDataDir "SingletonLock") = Some stats →
  isSymbolicLink stats = true →
  readlinkSync (path_join userDataDir "SingletonLock")
  = Some (host ++ String "-" pid) →
  all_digits pid = true → pid ≠ "" →
  isProfileLocked number path_join lstatSync readlinkSync parseInt
    process_kill userDataDir
  = process_kill (parseInt pid).
Proof.
  intros Hstat Hlink Hread Hd Hne. unfold isProfileLocked.
  rewrite Hstat, Hlink, Hread, (match_pid_suffix host pid Hd Hne).
  now destruct (process_kill (parseInt pid)).
Qed.

(** X16.  A lock is reported only for a lock file that is there, as a
    file or as a link that can be read; a link whose target names no pid
    counts as locked without any process being asked. *)
Theorem isProfileLocked_true (number : Type)
    (path_join : string → string → string)
    (lstatSync : string → option Stats)
    (readlinkSync : string → option string)
    (parseInt : string → number) (process_kill : number → bool)
    (userDataDir : string) :
  (isProfileLocked number path_join lstatSync readlinkSync parseInt
     process_kill userDataDir = true →
   ∃ stats,
     lstatSync (path_join userDataDir "SingletonLock") = Some stats ∧
     (isFile stats = true ∨ isSymbolicLink stats = true) ∧
     (isSymbolicLink stats = true →
      ∃ target,
        readlinkSync (path_join userDataDir "SingletonLock") = Some target))
  ∧ (∀ stats target,
       lstatSync (path_join userDataDir "SingletonLock") = Some stats →
       isSymbolicLink stats = true →
       readlinkSync (path_join userDataDir "SingletonLock") = Some target →
       match_pid target = None →
       isProfileLocked number path_join lstatSync readlinkSync parseInt
         process_kill userDataDir = true).
Proof.
  unfold isProfileLocked. split.
  - destruct (lstatSync _) as [stats|]; [|discriminate].
    destruct (isSymbolicLink stats) eqn:Hlink.
    + destruct (readlinkSync _) as [target|]; [|discriminate].
      intros _. exists stats.
      split; [reflexivity|]. split; [now right | eauto].
    + rewrite orb_false_r. intros Hfile. exists stats.
      split; [reflexivity|]. split; [now left | congruence].
  - intros stats target -> Hlink -> ->. rewrite Hlink. apply orb_true_r.
Qed.

(** Two profiles: the lock of one links to [my-host-2-4242], the lock of
    the other to [my-host]. *)
Definition example_join (dir name : string) : string := dir ++ "/" ++ name.

Definition example_lstat (p : string) : option Stats :=
  if String.eqb p "/home/u/profile/SingletonLock"
     || String.eqb p "/home/u/stale/SingletonLock"
  then Some {| isFile := false; isSymbolicLink := true |}
  else None.

Definition example_readlink (p : string) : option string :=
  if String.eqb p "/home/u/profile/SingletonLock"
  then Some "my-host-2-4242"
  else if String.eqb p "/home/u/stale/SingletonLock" then Some "my-host"
  else None.

Definition example_parseInt (s : string) : Z :=
  match NilEmpty.int_of_string s with
  | Some d => Z.of_int d
  | None => 0
  end.

Definition example_kill (pid : Z) : bool := (pid =? 4242)%Z.

Lemma isProfileLocked_pid_witness :
  isProfileLocked Z example_join example_lstat example_readlink
    example_parseInt example_kill "/home/u/profile"
  = example_kill (example_parseInt "4242").
Proof.
  apply (isProfileLocked_pid Z example_join example_lstat example_readlink
           example_parseInt example_kill "/home/u/profile" "my-host-2" "4242"
           {| isFile := false; isSymbolicLink := true |});
    [reflexivity | reflexivity | reflexivity | reflexivity | discriminate].
Defined.

Example isProfileLocked_hostname :
  match_pid "my-host" = None
  ∧ isProfileLocked Z example_join example_lstat example_readlink
      example_parseInt (λ _, false) "/home/u/stale" = true.
Proof. split; reflexivity. Qed.

Example isProfileLocked_missing :
  isProfileLocked Z example_join example_lstat example_readlink
    example_parseInt example_kill "/home/u/other" = false.
Proof. reflexivity. Qed.

End Launcher.
